(** * A shallow embedding of the ledger core of erik404/blockchain

    Sources embedded here:
    - src/src/structs/token.rs        ([Token::new], [Token::format_amount])
    - src/src/structs/transaction.rs  ([Transaction], [stringify])
    - src/src/common/calculate_hash.rs ([calculate_block_hash])
    - src/src/core/block.rs           ([Block::new], [Block::mine])
    - src/src/core/blockchain.rs      ([Blockchain] and its methods)
    - src/src/errors/transaction_errors.rs ([TransactionError])

    Conventions.
    - [u64] / [u32] / [usize] values are [N]; every arithmetic operation
      that Rust checks in a debug build ([-=], [+=], [+ 1], [pow]) is
      written out with its bound, and an overflow is a panic.
    - A panic, and a mining loop that has not found its nonce within the
      given [fuel], are both [None] of an [option]: the call does not return.
    - [Utc::now().to_rfc3339()] is an explicit argument [now : string].
    - [HashMap<String, u64>] is [gmap string N]. *)

From stdpp Require Import base gmap strings list fin_maps.
From Stdlib Require Import ZArith NArith Ascii String.

Open Scope string_scope.

(* ------------------------------------------------------------------ *)
(** ** Machine integers and formatting *)

Definition u64_max : N := 2 ^ 64 - 1.
Definition u32_max : N := 2 ^ 32 - 1.

(** [checked_add] on [u64]. *)
Definition checked_add (a b : N) : option N :=
  if decide (a + b <= u64_max)%N then Some (a + b)%N else None.

(** [a -= b] on [u64] in a debug build: panics on underflow. *)
Definition checked_sub (a b : N) : option N :=
  if decide (b <= a)%N then Some (a - b)%N else None.

Definition digit_char (d : N) : ascii := ascii_of_N (48 + d).

(** Decimal digits of [n], most significant first (the [Display] of an
    unsigned integer). [fuel] bounds the number of digits. *)
Fixpoint dec_digits (fuel : nat) (n : N) (acc : string) : string :=
  match fuel with
  | O => acc
  | S fuel' =>
      let acc' := String (digit_char (n mod 10)) acc in
      if decide (n / 10 = 0)%N then acc' else dec_digits fuel' (n / 10) acc'
  end.

(** [format!("{}", n)] for an unsigned integer. *)
Definition N_to_string (n : N) : string := dec_digits (S (N.to_nat (N.log2 n))) n "".


(** ["0".repeat(n)] *)
Fixpoint repeat_str (n : nat) (s : string) : string :=
  match n with
  | O => ""
  | S n' => s +:+ repeat_str n' s
  end.

(** [format!("{:0width$}", s)]: left-pad with ['0'] up to [width]. *)
Definition pad_zeros (width : nat) (s : string) : string :=
  repeat_str (width - String.length s) "0" +:+ s.

(* ------------------------------------------------------------------ *)
(** ** SHA-256 and [hex::encode] (the [sha2] and [hex] crates) *)

Module Sha256.
Open Scope list_scope.
Open Scope Z_scope.

Definition w32 (x : Z) : Z := Z.land x (2 ^ 32 - 1).
Definition add32 (x y : Z) : Z := w32 (x + y).
Definition rotr (x : Z) (n : Z) : Z :=
  w32 (Z.lor (Z.shiftr x n) (Z.shiftl x (32 - n))).
Definition ch (x y z : Z) : Z :=
  Z.lxor (Z.land x y) (Z.land (Z.lxor x (2 ^ 32 - 1)) z).
Definition maj (x y z : Z) : Z :=
  Z.lxor (Z.land x y) (Z.lxor (Z.land x z) (Z.land y z)).
Definition bsig0 x := Z.lxor (rotr x 2) (Z.lxor (rotr x 13) (rotr x 22)).
Definition bsig1 x := Z.lxor (rotr x 6) (Z.lxor (rotr x 11) (rotr x 25)).
Definition ssig0 x := Z.lxor (rotr x 7) (Z.lxor (rotr x 18) (Z.shiftr x 3)).
Definition ssig1 x := Z.lxor (rotr x 17) (Z.lxor (rotr x 19) (Z.shiftr x 10)).

(** The first [n] primes, by trial division. *)
Definition is_prime (p : Z) : bool :=
  (1 <? p) && forallb (fun d => negb (Z.modulo p d =? 0))
                      (map Z.of_nat (seq 2 (Z.to_nat (Z.sqrt p) - 1))).

Definition first_primes (n : nat) : list Z :=
  firstn n (filter is_prime (map Z.of_nat (seq 2 400))).

(** Integer cube root, bit by bit from [2^(k-1)] down. *)
Fixpoint cbrt_bits (k : nat) (n x : Z) : Z :=
  match k with
  | O => x
  | S k' =>
      let y := x + 2 ^ Z.of_nat k' in
      cbrt_bits k' n (if y ^ 3 <=? n then y else x)
  end.

(** The round constants: the first 32 bits of the fractional parts of the
    cube roots of the first 64 primes. *)
Definition K : list Z :=
  Eval vm_compute in map (fun p => cbrt_bits 48 (p * 2 ^ 96) 0 mod 2 ^ 32) (first_primes 64).

(** The initial hash value: the first 32 bits of the fractional parts of
    the square roots of the first 8 primes. *)
Definition H0 : list Z :=
  Eval vm_compute in map (fun p => Z.sqrt (p * 2 ^ 64) mod 2 ^ 32) (first_primes 8).

Definition bytes_of_string (s : string) : list Z :=
  map (fun c => Z.of_N (N_of_ascii c)) (list_ascii_of_string s).

(** Padding: [0x80], zeros up to 56 mod 64, then the bit length. *)
Definition pad (msg : list Z) : list Z :=
  let n := Z.of_nat (List.length msg) in
  let k := Z.to_nat ((119 - n mod 64) mod 64) in
  let bits := n * 8 in
  msg ++ [0x80] ++ repeat 0 k ++
    map (fun i => Z.land (Z.shiftr bits (8 * (7 - Z.of_nat i))) 255) (seq 0 8).

Fixpoint words (l : list Z) : list Z :=
  match l with
  | a :: b :: c :: d :: rest =>
      (a * 2 ^ 24 + b * 2 ^ 16 + c * 2 ^ 8 + d) :: words rest
  | _ => []
  end.

Fixpoint chunks (fuel : nat) (ws : list Z) : list (list Z) :=
  match fuel with
  | O => []
  | S f => match ws with
           | [] => []
           | _ => firstn 16 ws :: chunks f (skipn 16 ws)
           end
  end.

(** The 64-word message schedule, built in reverse. *)
Fixpoint schedule_rev (n : nat) (acc : list Z) : list Z :=
  match n with
  | O => acc
  | S n' =>
      let w := add32 (add32 (ssig1 (nth 1 acc 0)) (nth 6 acc 0))
                     (add32 (ssig0 (nth 14 acc 0)) (nth 15 acc 0)) in
      schedule_rev n' (w :: acc)
  end.

Definition schedule (block : list Z) : list Z := rev (schedule_rev 48 (rev block)).

Definition round (st : list Z) (kw : Z * Z) : list Z :=
  match st with
  | [a; b; c; d; e; f; g; h] =>
      let t1 := add32 (add32 (add32 h (bsig1 e)) (add32 (ch e f g) (fst kw))) (snd kw) in
      let t2 := add32 (bsig0 a) (maj a b c) in
      [add32 t1 t2; a; b; c; add32 d t1; e; f; g]
  | _ => st
  end.

Definition compress (hs : list Z) (block : list Z) : list Z :=
  let st := fold_left round (combine K (schedule block)) hs in
  zip_with add32 hs st.

Definition digest (msg : list Z) : list Z :=
  let ws := words (pad msg) in
  let hs := fold_left compress (chunks (List.length ws) ws) H0 in
  flat_map (fun w => map (fun i => Z.land (Z.shiftr w (8 * (3 - Z.of_nat i))) 255) (seq 0 4)) hs.

Definition hex_char (d : Z) : ascii :=
  if Z.ltb d 10 then ascii_of_N (Z.to_N (48 + d)) else ascii_of_N (Z.to_N (87 + d)).

(** [hex::encode]: two lowercase hex characters per byte. *)
Definition hex_encode (bs : list Z) : string :=
  string_of_list_ascii (flat_map (fun b => [hex_char (Z.shiftr b 4); hex_char (Z.land b 15)]) bs).

Definition sha256_hex (s : string) : string := hex_encode (digest (bytes_of_string s)).
End Sha256.

(* ------------------------------------------------------------------ *)
(** ** [Token] (src/src/structs/token.rs) *)

Record Token := {
  token_name : string;
  token_symbol : string;
  decimals : N;            (* u8 *)
  smallest_unit : N;       (* u64 *)
  total_supply : N;        (* u64 *)
}.

(** [Token::new]: [10u64.pow(decimals as u32)] panics on overflow. *)
Definition Token_new (name symbol : string) (decimals : N) (total_supply : N) : option Token :=
  let smallest_unit := (10 ^ decimals)%N in
  if decide (smallest_unit <= u64_max)%N then
    Some {| token_name := name; token_symbol := symbol; decimals := decimals;
            smallest_unit := smallest_unit; total_supply := total_supply |}
  else None.

(** [Token::format_amount]: [format!("{}.{:0width$}", whole, fractional,
    width = decimals)]; [/] and [%] by zero panic. *)
Definition format_amount (t : Token) (amount : N) : option string :=
  if decide (smallest_unit t = 0)%N then None else
  let whole := (amount / smallest_unit t)%N in
  let fractional := (amount mod smallest_unit t)%N in
  Some (N_to_string whole +:+ "." +:+
        pad_zeros (N.to_nat (decimals t)) (N_to_string fractional)).

(* ------------------------------------------------------------------ *)
(** ** [Transaction] and [TransactionError] *)

Record Transaction := {
  sender : string;
  receiver : string;
  amount : N;              (* u64 *)
}.

Definition Transaction_new (s r : string) (a : N) : Transaction :=
  {| sender := s; receiver := r; amount := a |}.

(** [Transaction::stringify]: [format!("{}{}{}", sender, receiver, amount)]. *)
Definition stringify (t : Transaction) : string :=
  sender t +:+ receiver t +:+ N_to_string (amount t).

Inductive TransactionError :=
| AddressCannotBeEmpty
| SenderAndReceiverCannotBeTheSame
| AmountMustBeGreaterThanZero
| InsufficientBalance (sender : string) (requested : N) (available : N)
| SenderDoesNotExist (sender : string)
| BalanceOverflow.

Inductive Result (A E : Type) := Ok (a : A) | Err (e : E).
Arguments Ok {A E} a.
Arguments Err {A E} e.

(* ------------------------------------------------------------------ *)
(** ** [calculate_block_hash] (src/src/common/calculate_hash.rs) *)

Fixpoint transactions_string (txs : list Transaction) : string :=
  match txs with
  | [] => ""
  | t :: rest => stringify t +:+ transactions_string rest
  end.

Definition calculate_block_hash (index : N) (timestamp : string)
    (transactions : list Transaction) (previous_hash : string) (nonce : N) : string :=
  Sha256.sha256_hex
    (N_to_string index +:+ timestamp +:+ transactions_string transactions +:+
     previous_hash +:+ N_to_string nonce).

(* ------------------------------------------------------------------ *)
(** ** [Block] (src/src/core/block.rs) *)

Record Block := {
  index : N;               (* u32 *)
  timestamp : string;
  transactions : list Transaction;
  previous_hash : string;
  hash : string;
  nonce : N;               (* u64 *)
}.

Definition set_hash (b : Block) (h : string) : Block :=
  {| index := index b; timestamp := timestamp b; transactions := transactions b;
     previous_hash := previous_hash b; hash := h; nonce := nonce b |}.

Definition set_nonce (b : Block) (n : N) : Block :=
  {| index := index b; timestamp := timestamp b; transactions := transactions b;
     previous_hash := previous_hash b; hash := hash b; nonce := n |}.

(** The hash recomputed from a block's stored fields. *)
Definition block_hash_of (b : Block) : string :=
  calculate_block_hash (index b) (timestamp b) (transactions b) (previous_hash b) (nonce b).


(** The loop of [Block::mine]: [while !self.hash.starts_with(&target)]
    increment the nonce ([+= 1], panicking past [u64::MAX]) and recompute
    the hash. [fuel] bounds the number of iterations. *)
Fixpoint mine_loop (fuel : nat) (target : string) (b : Block) : option Block :=
  if String.prefix target (hash b) then Some b else
  match fuel with
  | O => None
  | S fuel' =>
      match checked_add (nonce b) 1 with
      | None => None
      | Some n =>
          let b1 := set_nonce b n in
          mine_loop fuel' target (set_hash b1 (block_hash_of b1))
      end
  end.

Definition mine (fuel : nat) (difficulty : nat) (b : Block) : option Block :=
  mine_loop fuel (repeat_str difficulty "0") b.

(** [Block::new]: timestamp [now], nonce 0, hash at nonce 0, then mine. *)
Definition Block_new (fuel : nat) (now : string) (index : N) (transactions : list Transaction)
    (previous_hash : string) (difficulty : nat) : option Block :=
  let block := {| index := index; timestamp := now; transactions := transactions;
                  previous_hash := previous_hash; hash := ""; nonce := 0 |} in
  let block := set_hash block (calculate_block_hash index now transactions previous_hash 0) in
  mine fuel difficulty block.

(* ------------------------------------------------------------------ *)
(** ** [Blockchain] (src/src/core/blockchain.rs) *)

Record Config := {
  cfg_token_name : string;
  cfg_token_symbol : string;
  cfg_decimals : N;
  cfg_total_supply : N;
  cfg_genesis_hash : string;
  cfg_difficulty : nat;
  cfg_genesis_pre_mined : N;
  cfg_genesis_miner : string;
}.

Record Blockchain := {
  chain : list Block;
  token : Token;
  mempool : list Transaction;
  accounts : gmap string N;
  difficulty : nat;
}.

Definition set_chain (bc : Blockchain) (c : list Block) : Blockchain :=
  {| chain := c; token := token bc; mempool := mempool bc;
     accounts := accounts bc; difficulty := difficulty bc |}.
Definition set_mempool (bc : Blockchain) (m : list Transaction) : Blockchain :=
  {| chain := chain bc; token := token bc; mempool := m;
     accounts := accounts bc; difficulty := difficulty bc |}.
Definition set_accounts (bc : Blockchain) (a : gmap string N) : Blockchain :=
  {| chain := chain bc; token := token bc; mempool := mempool bc;
     accounts := a; difficulty := difficulty bc |}.

(** [Blockchain::new]. [Err] carries the error string; [None] is a panic
    of [Token::new] or a genesis mining loop that did not finish. *)
Definition Blockchain_new (fuel : nat) (now : string) (config : Config)
    : option (Result Blockchain string) :=
  if decide (cfg_total_supply config < cfg_genesis_pre_mined config)%N then
    Some (Err "ERR_TOTAL_SUPPLY_LESS_THAN_PRE_MINED")
  else
    match Token_new (cfg_token_name config) (cfg_token_symbol config)
                    (cfg_decimals config) (cfg_total_supply config) with
    | None => None
    | Some token =>
        let accounts : gmap string N :=
          <[cfg_genesis_miner config := cfg_genesis_pre_mined config]> ∅ in
        match Block_new fuel now 0 [] (cfg_genesis_hash config) (cfg_difficulty config) with
        | None => None
        | Some genesis_block =>
            Some (Ok {| chain := [genesis_block]; accounts := accounts; token := token;
                        mempool := []; difficulty := cfg_difficulty config |})
        end
    end.

(** [HashMap::entry(k).or_insert(0)]: the map after the call. *)
Definition entry_or_insert0 (m : gmap string N) (k : string) : gmap string N :=
  match m !! k with Some _ => m | None => <[k := 0%N]> m end.

(** [Blockchain::validate_transaction_with_temp_balances]: the result and
    the temporary balances after the call (they are mutated in place).
    The final [+= amount] on the receiver cannot overflow: the same sum was
    checked above and the receiver is not the sender
    ([validate_credit_in_range] below). *)
Definition validate_transaction_with_temp_balances (transaction : Transaction)
    (temp_balances : gmap string N) : Result unit TransactionError * gmap string N :=
  if decide (sender transaction = "" \/ receiver transaction = "") then
    (Err AddressCannotBeEmpty, temp_balances)
  else if decide (sender transaction = receiver transaction) then
    (Err SenderAndReceiverCannotBeTheSame, temp_balances)
  else if decide (amount transaction = 0%N) then
    (Err AmountMustBeGreaterThanZero, temp_balances)
  else
    let temp_balances := entry_or_insert0 temp_balances (receiver transaction) in
    let receiver_balance := default 0%N (temp_balances !! receiver transaction) in
    match checked_add receiver_balance (amount transaction) with
    | None => (Err BalanceOverflow, temp_balances)
    | Some _ =>
        match temp_balances !! sender transaction with
        | None => (Err (SenderDoesNotExist (sender transaction)), temp_balances)
        | Some sender_balance =>
            if decide (sender_balance < amount transaction)%N then
              (Err (InsufficientBalance (sender transaction) (amount transaction) sender_balance),
               temp_balances)
            else
              let temp_balances :=
                <[sender transaction := (sender_balance - amount transaction)%N]> temp_balances in
              let temp_balances := entry_or_insert0 temp_balances (receiver transaction) in
              let rb := default 0%N (temp_balances !! receiver transaction) in
              (Ok tt, <[receiver transaction := (rb + amount transaction)%N]> temp_balances)
        end
    end.

(** The loop of [process_mempool]: accepted transactions, the errors
    reported on stderr (with their transaction), and the final projection. *)
Fixpoint process_txs (txs : list Transaction) (temp_balances : gmap string N)
    : list Transaction * list (Transaction * TransactionError) * gmap string N :=
  match txs with
  | [] => ([], [], temp_balances)
  | t :: rest =>
      let '(r, temp') := validate_transaction_with_temp_balances t temp_balances in
      let '(valid, errs, final) := process_txs rest temp' in
      match r with
      | Ok _ => (t :: valid, errs, final)
      | Err why => (valid, (t, why) :: errs, final)
      end
  end.

(** [Blockchain::process_mempool]: the valid transactions, the reported
    errors, and the ledger with its mempool cleared. *)
Definition process_mempool (bc : Blockchain)
    : list Transaction * list (Transaction * TransactionError) * Blockchain :=
  let '(valid, errs, _) := process_txs (mempool bc) (accounts bc) in
  (valid, errs, set_mempool bc []).

(** [Blockchain::execute_transactions]: unchecked [-=] / [+=], which panic
    in a debug build on underflow / overflow. *)
Fixpoint execute_transactions (accounts : gmap string N) (txs : list Transaction)
    : option (gmap string N) :=
  match txs with
  | [] => Some accounts
  | t :: rest =>
      let a1 := entry_or_insert0 accounts (sender t) in
      match checked_sub (default 0%N (a1 !! sender t)) (amount t) with
      | None => None
      | Some sb =>
          let a2 := entry_or_insert0 (<[sender t := sb]> a1) (receiver t) in
          match checked_add (default 0%N (a2 !! receiver t)) (amount t) with
          | None => None
          | Some rb => execute_transactions (<[receiver t := rb]> a2) rest
          end
      end
  end.

(** The loop of [Blockchain::is_valid] over [i in 1..chain.len()]: [prev]
    is [chain[i-1]], the list the blocks from [i] on. It returns the
    boolean and the line printed on stderr before an early [return false]. *)
Fixpoint is_valid_from (prev : Block) (rest : list Block) : bool * list string :=
  match rest with
  | [] => (true, [])
  | current :: rest' =>
      if negb (String.eqb (previous_hash current) (hash prev)) then
        (false, ["Chain is broken at block " +:+ N_to_string (index current) +:+ "!"])
      else
        let recalculated_hash :=
          calculate_block_hash (index current) (timestamp current) (transactions current)
                               (previous_hash current) (nonce current) in
        if negb (String.eqb (hash current) recalculated_hash) then
          (false, ["Block " +:+ N_to_string (index current) +:+ " has an invalid hash!"])
        else is_valid_from current rest'
  end.

Definition is_valid_run (chain : list Block) : bool * list string :=
  match chain with
  | [] => (true, [])
  | genesis :: rest => is_valid_from genesis rest
  end.

(** [Blockchain::is_valid]. *)
Definition is_valid (chain : list Block) : bool := fst (is_valid_run chain).

(** [Blockchain::add_block]. [None]: a panic ([last().unwrap()] on an
    empty chain, [index + 1] past [u32::MAX], an arithmetic panic in
    [execute_transactions]) or a mining loop that did not finish in [fuel]. *)
Definition add_block (fuel : nat) (now : string) (bc : Blockchain) : option Blockchain :=
  let '(valid_transactions, _, bc) := process_mempool bc in
  match valid_transactions with
  | [] => Some bc
  | _ :: _ =>
      match last (chain bc) with
      | None => None
      | Some last_block =>
          let new_block_index := (index last_block + 1)%N in
          if decide (u32_max < new_block_index)%N then None else
          match Block_new fuel now new_block_index valid_transactions (hash last_block)
                          (difficulty bc) with
          | None => None
          | Some new_block =>
              let bc := set_chain bc (chain bc ++ [new_block]) in
              if negb (is_valid (chain bc)) then
                Some (set_chain bc (removelast (chain bc)))
              else
                match execute_transactions (accounts bc) valid_transactions with
                | None => None
                | Some acc => Some (set_accounts bc acc)
                end
          end
      end
  end.

(** The filter of [Blockchain::get_transaction_history]:
    [tx.sender == *address || tx.receiver == *address]. *)
Definition tx_involves (address : string) (tx : Transaction) : bool :=
  String.eqb (sender tx) address || String.eqb (receiver tx) address.

(** [Blockchain::get_transaction_history]: the transactions of all blocks,
    in chain order, that involve [address]. *)
Definition get_transaction_history (bc : Blockchain) (address : string) : list Transaction :=
  flat_map (fun block => List.filter (tx_involves address) (transactions block)) (chain bc).

(* ------------------------------------------------------------------ *)
(** ** Concrete runs *)

Definition mock_config : Config := {|
  cfg_token_name := "test_name"; cfg_token_symbol := "test_symbol";
  cfg_decimals := 10; cfg_total_supply := 21000000000;
  cfg_genesis_hash := "genesis_name"; cfg_difficulty := 1;
  cfg_genesis_pre_mined := 2100000; cfg_genesis_miner := "Miner" |}.

Definition now0 : string := "2025-01-01T00:00:00+00:00".

Definition empty_token : Token :=
  {| token_name := ""; token_symbol := ""; decimals := 0; smallest_unit := 1; total_supply := 0 |}.

Definition empty_ledger : Blockchain :=
  {| chain := []; token := empty_token; mempool := []; accounts := ∅; difficulty := 0 |}.

Definition ok_or (r : option (Result Blockchain string)) (d : Blockchain) : Blockchain :=
  match r with Some (Ok bc) => bc | _ => d end.

(** The ledger built by [Blockchain::new] from [mock_config] at [now0]. *)
Definition ledger0 : Blockchain :=
  Eval vm_compute in ok_or (Blockchain_new 200 now0 mock_config) empty_ledger.

(** The mock ledger with [A] holding 100 and two transfers from [A] whose
    sum (110) exceeds that balance. *)
Definition ledger_ab : Blockchain :=
  set_mempool (set_accounts ledger0 (<["A" := 100%N]> (accounts ledger0)))
    [Transaction_new "A" "B" 50; Transaction_new "A" "C" 60].

Definition now1 : string := "2025-01-01T00:00:01+00:00".

Definition ledger1 : Blockchain :=
  Eval vm_compute in default ledger_ab (add_block 500 now1 ledger_ab).

Definition empty_block : Block :=
  {| index := 0; timestamp := ""; transactions := []; previous_hash := ""; hash := "";
     nonce := 0 |}.

(** The genesis block of [ledger0]. *)
Definition genesis0 : Block := Eval vm_compute in default empty_block (head (chain ledger0)).

(** The genesis block of [ledger0] with another timestamp (hash unchanged). *)
Definition genesis0_retimed : Block :=
  {| index := index genesis0; timestamp := "1999-12-31T23:59:59+00:00";
     transactions := transactions genesis0; previous_hash := previous_hash genesis0;
     hash := hash genesis0; nonce := nonce genesis0 |}.

(** Block 1 of [ledger1]. *)
Definition block1 : Block := Eval vm_compute in default empty_block (chain ledger1 !! 1).

(** Block 1 of [ledger1] with its transfer [A -> B 50] replaced by
    [A -> B5 0]: both stringify to ["AB50"]. *)
Definition block1_retx : Block :=
  {| index := index block1; timestamp := timestamp block1;
     transactions := [Transaction_new "A" "B5" 0]; previous_hash := previous_hash block1;
     hash := hash block1; nonce := nonce block1 |}.

(** [A] holds 10 and [B] is 5 below [u64::MAX]; [A] sends 6 to [C] and then
    6 to [B]. *)
Definition ledger_c3 : Blockchain :=
  set_mempool
    (set_accounts ledger0 (<["A" := 10%N]> (<["B" := (u64_max - 5)%N]> (accounts ledger0))))
    [Transaction_new "A" "C" 6; Transaction_new "A" "B" 6].

(** [A] holds 10 and [R] has no account; [X] (no account) sends 5 to [R],
    [A] sends 10 to [R], then [R] sends 5 to [Y]. *)
Definition ledger_c9 : Blockchain :=
  set_mempool (set_accounts ledger0 (<["A" := 10%N]> (accounts ledger0)))
    [Transaction_new "X" "R" 5; Transaction_new "A" "R" 10; Transaction_new "R" "Y" 5].

(** The token built by [Token::new] with 8 decimals. *)
Definition token8 : Token :=
  {| token_name := "test_name"; token_symbol := "test_symbol"; decimals := 8;
     smallest_unit := 100000000; total_supply := 21000000000 |}.

(** The token built by [Token::new] with 0 decimals. *)
Definition token0 : Token :=
  {| token_name := "test_name"; token_symbol := "test_symbol"; decimals := 0;
     smallest_unit := 1; total_supply := 21000000000 |}.

(** The ledger built from [mock_config] with one transfer pushed to its
    mempool: the genesis miner sends 100 to [A]. *)
Definition ledger_m : Blockchain :=
  set_mempool ledger0 (mempool ledger0 ++ [Transaction_new "Miner" "A" 100])%list.

(** [ledger_m] after [add_block]: one block on top of the genesis block. *)
Definition ledger_r1 : Blockchain :=
  Eval vm_compute in default ledger_m (add_block 500 now1 ledger_m).

(* ------------------------------------------------------------------ *)
(** ** Specification-side definitions *)

(** A balance read with a missing entry as 0. *)
Definition bal (m : gmap string N) (k : string) : N := default 0%N (m !! k).

(** The validation order as the specification lists it (§4.5, §7): the
    first failing check decides the error. *)
Definition validate_order_spec (t : Transaction) (temp : gmap string N)
    : Result unit TransactionError :=
  if decide (sender t = "" \/ receiver t = "") then Err AddressCannotBeEmpty
  else if decide (sender t = receiver t) then Err SenderAndReceiverCannotBeTheSame
  else if decide (amount t = 0%N) then Err AmountMustBeGreaterThanZero
  else if decide (u64_max < bal temp (receiver t) + amount t)%N then Err BalanceOverflow
  else match temp !! sender t with
       | None => Err (SenderDoesNotExist (sender t))
       | Some b =>
           if decide (b < amount t)%N then Err (InsufficientBalance (sender t) (amount t) b)
           else Ok tt
       end.

(** Each consecutive pair of blocks is linked and the later block's stored
    hash is the one recomputed from its fields. *)
Definition links_ok (c : list Block) : Prop :=
  forall i prv cur, c !! i = Some prv -> c !! S i = Some cur ->
    previous_hash cur = hash prv /\ block_hash_of cur = hash cur.

(** A block with its transactions replaced (every other field kept). *)
Definition set_transactions (b : Block) (txs : list Transaction) : Block :=
  {| index := index b; timestamp := timestamp b; transactions := txs;
     previous_hash := previous_hash b; hash := hash b; nonce := nonce b |}.

(** The sum of all balances of an accounts map. *)
Definition total_balance (m : gmap string N) : N := map_fold (fun _ v acc => v + acc)%N 0%N m.

(** What a list of transfers moves into [address]: received minus sent. *)
Fixpoint net_flow (address : string) (txs : list Transaction) : Z :=
  match txs with
  | [] => 0%Z
  | t :: rest =>
      ((if String.eqb (receiver t) address then Z.of_N (amount t) else 0) -
       (if String.eqb (sender t) address then Z.of_N (amount t) else 0) +
       net_flow address rest)%Z
  end.

(** A lowercase hexadecimal digit: ['0'..'9'] or ['a'..'f']. *)
Definition is_lower_hex (c : ascii) : bool :=
  let n := N_of_ascii c in ((48 <=? n) && (n <=? 57) || (97 <=? n) && (n <=? 102))%N.

(** The ledgers a client of the public API builds from [cfg]:
    [Blockchain::new], pushing a transaction to the (public) mempool, and
    [add_block]. Writes to the public [chain] and [accounts] fields are not
    among the steps. *)
Inductive reachable (cfg : Config) : Blockchain -> Prop :=
| reachable_new fuel now bc :
    Blockchain_new fuel now cfg = Some (Ok bc) -> reachable cfg bc
| reachable_submit bc t :
    reachable cfg bc -> reachable cfg (set_mempool bc (mempool bc ++ [t])%list)
| reachable_add_block fuel now bc bc' :
    reachable cfg bc -> add_block fuel now bc = Some bc' -> reachable cfg bc'.

(** A well-formed transfer: what [validate_transaction_with_temp_balances]
    requires of a transaction before looking at balances. *)
Definition tx_wf (t : Transaction) : Prop :=
  sender t <> "" /\ receiver t <> "" /\ sender t <> receiver t /\ amount t <> 0%N.

(* ------------------------------------------------------------------ *)
(** ** Test vectors of the hash and of the number formatting *)

Example sha256_abc :
  Sha256.sha256_hex "abc" =
  "ba7816bf8f01cfea414140de5dae2223b00361a396177a9cb410ff61f20015ad".
Proof. vm_compute. reflexivity. Qed.

Example sha256_empty :
  Sha256.sha256_hex "" =
  "e3b0c44298fc1c149afbf4c8996fb92427ae41e4649b934ca495991b7852b855".
Proof. vm_compute. reflexivity. Qed.

Example N_to_string_ex : N_to_string 0 = "0" /\ N_to_string 10 = "10" /\
  N_to_string 12345678901 = "12345678901".
Proof. vm_compute. auto. Qed.

(* ------------------------------------------------------------------ *)
(** ** Lemmas on the projection *)

Lemma lookup_entry_or_insert0_ne (m : gmap string N) r k :
  k <> r -> entry_or_insert0 m r !! k = m !! k.
Proof.
  intros Hne. unfold entry_or_insert0.
  destruct (m !! r); [done|]. by rewrite lookup_insert_ne.
Qed.

Lemma lookup_entry_or_insert0_eq (m : gmap string N) r :
  entry_or_insert0 m r !! r = Some (bal m r).
Proof.
  unfold entry_or_insert0, bal. destruct (m !! r) eqn:E; simpl.
  - exact E.
  - by rewrite lookup_insert_eq.
Qed.

Lemma bal_entry_or_insert0 (m : gmap string N) r k :
  bal (entry_or_insert0 m r) k = bal m k.
Proof.
  destruct (decide (k = r)) as [->|Hne].
  - unfold bal at 1. rewrite lookup_entry_or_insert0_eq. done.
  - unfold bal. by rewrite lookup_entry_or_insert0_ne.
Qed.

Lemma bal_insert (m : gmap string N) k v j :
  bal (<[k := v]> m) j = if decide (k = j) then v else bal m j.
Proof.
  unfold bal. destruct (decide (k = j)) as [->|Hne].
  - by rewrite lookup_insert_eq.
  - by rewrite lookup_insert_ne.
Qed.

Lemma is_Some_entry_or_insert0 (m : gmap string N) r k :
  is_Some (m !! k) -> is_Some (entry_or_insert0 m r !! k).
Proof.
  intros H. destruct (decide (k = r)) as [->|Hne].
  - rewrite lookup_entry_or_insert0_eq. eauto.
  - by rewrite lookup_entry_or_insert0_ne.
Qed.

(* ------------------------------------------------------------------ *)
(** ** Lemmas on [is_valid] *)

Lemma links_ok_single b : links_ok [b].
Proof. intros i prv cur _ H. destruct i; discriminate. Qed.

Lemma links_ok_cons a b l :
  links_ok (a :: b :: l) <->
  (previous_hash b = hash a /\ block_hash_of b = hash b) /\ links_ok (b :: l).
Proof.
  split.
  - intros H. split.
    + apply (H 0); reflexivity.
    + intros i prv cur H1 H2. apply (H (S i)); assumption.
  - intros [H0 H] i prv cur H1 H2. destruct i as [|i].
    + simpl in H1, H2. injection H1 as <-. injection H2 as <-. exact H0.
    + apply (H i); assumption.
Qed.

Lemma is_valid_from_links prev rest :
  fst (is_valid_from prev rest) = true <-> links_ok (prev :: rest).
Proof.
  revert prev. induction rest as [|cur rest IH]; intros prev; simpl.
  - split; [intros _; apply links_ok_single | done].
  - rewrite links_ok_cons, <- IH. unfold block_hash_of.
    destruct (String.eqb (previous_hash cur) (hash prev)) eqn:E1; simpl.
    + apply String.eqb_eq in E1.
      destruct (String.eqb (hash cur) _) eqn:E2; simpl.
      * apply String.eqb_eq in E2. intuition.
      * apply String.eqb_neq in E2. split; [discriminate|]. intros [[_ ?] _]. congruence.
    + apply String.eqb_neq in E1. split; [discriminate|]. intros [[? _] _]. congruence.
Qed.

Lemma is_valid_from_log prev rest :
  (fst (is_valid_from prev rest) = true -> snd (is_valid_from prev rest) = []) /\
  (fst (is_valid_from prev rest) = false -> List.length (snd (is_valid_from prev rest)) = 1).
Proof.
  revert prev. induction rest as [|cur rest IH]; intros prev; simpl; [split; done|].
  destruct (negb _); [split; done|].
  destruct (negb _); [split; done|]. apply IH.
Qed.

Lemma is_valid_links (c : list Block) : is_valid c = true <-> links_ok c.
Proof.
  unfold is_valid, is_valid_run. destruct c as [|g rest].
  - split; [intros _ i prv cur H; discriminate | done].
  - apply is_valid_from_links.
Qed.

(* ------------------------------------------------------------------ *)
(** ** C4: the order of the validation checks *)

Lemma validate_check_order_eq (t : Transaction) (temp : gmap string N) :
  fst (validate_transaction_with_temp_balances t temp) = validate_order_spec t temp.
Proof.
  unfold validate_transaction_with_temp_balances, validate_order_spec.
  destruct (decide (sender t = "" \/ receiver t = "")) as [|Hne]; [done|].
  destruct (decide (sender t = receiver t)) as [|Hsr]; [done|].
  destruct (decide (amount t = 0%N)); [done|].
  rewrite lookup_entry_or_insert0_eq. simpl. unfold checked_add.
  destruct (decide (bal temp (receiver t) + amount t <= u64_max)%N) as [Hle|Hgt];
    destruct (decide (u64_max < bal temp (receiver t) + amount t)%N); try lia; simpl.
  - rewrite lookup_entry_or_insert0_ne by exact Hsr.
    destruct (temp !! sender t) as [b|]; simpl; [|done].
    destruct (decide (b < amount t)%N); done.
  - done.
Qed.

(** C4: for every transaction and temporary-balance map, the result of
    [validate_transaction_with_temp_balances] is the error of the first
    failing check in the order AddressCannotBeEmpty,
    SenderAndReceiverCannotBeTheSame, AmountMustBeGreaterThanZero,
    BalanceOverflow (crediting the receiver would exceed [u64::MAX]),
    SenderDoesNotExist, InsufficientBalance, and [Ok] otherwise. *)
Theorem validate_transaction_check_order (t : Transaction) (temp : gmap string N) :
  fst (validate_transaction_with_temp_balances t temp) = validate_order_spec t temp.
Proof. exact (validate_check_order_eq t temp). Qed.

(* ------------------------------------------------------------------ *)
(** ** C5: [is_valid] *)

(** C5: [is_valid] holds exactly when, for every index [i] from 1 to the
    last block, [chain[i].previous_hash = chain[i-1].hash] and the hash
    recomputed from [chain[i]]'s stored fields equals [chain[i].hash]. It
    is a total boolean function; it prints nothing when it returns true
    and exactly one line (the first failure, then it returns) when false. *)
Theorem is_valid_spec (c : list Block) :
  (is_valid c = true <->
   forall i cur prv, 1 <= i -> c !! i = Some cur -> c !! (i - 1) = Some prv ->
     previous_hash cur = hash prv /\
     calculate_block_hash (index cur) (timestamp cur) (transactions cur)
       (previous_hash cur) (nonce cur) = hash cur) /\
  (is_valid c = true -> snd (is_valid_run c) = []) /\
  (is_valid c = false -> List.length (snd (is_valid_run c)) = 1).
Proof.
  split; [|split].
  - rewrite is_valid_links. split.
    + intros H i cur prv Hi Hc Hp. destruct i as [|i]; [lia|].
      simpl in Hp. rewrite Nat.sub_0_r in Hp. exact (H i prv cur Hp Hc).
    + intros H i prv cur Hp Hc. apply (H (S i)); [lia|exact Hc|].
      simpl. rewrite Nat.sub_0_r. exact Hp.
  - unfold is_valid, is_valid_run. destruct c; [done|]. apply is_valid_from_log.
  - unfold is_valid, is_valid_run. destruct c; [done|]. apply is_valid_from_log.
Qed.

(* ------------------------------------------------------------------ *)
(** ** C6: mining *)

Lemma mine_loop_spec fuel target b b' :
  mine_loop fuel target b = Some b' ->
  hash b = block_hash_of b ->
  (forall n, (n < nonce b)%N -> String.prefix target
     (calculate_block_hash (index b) (timestamp b) (transactions b) (previous_hash b) n) = false) ->
  index b' = index b /\ timestamp b' = timestamp b /\ transactions b' = transactions b /\
  previous_hash b' = previous_hash b /\
  hash b' = block_hash_of b' /\ String.prefix target (hash b') = true /\
  (forall n, (n < nonce b')%N -> String.prefix target
     (calculate_block_hash (index b) (timestamp b) (transactions b) (previous_hash b) n) = false).
Proof.
  revert b. induction fuel as [|fuel IH]; intros b Hrun Hh Hfail; simpl in Hrun;
    destruct (String.prefix target (hash b)) eqn:Hp.
  - injection Hrun as <-. repeat split; auto.
  - discriminate.
  - injection Hrun as <-. repeat split; auto.
  - unfold checked_add in Hrun.
    destruct (decide (nonce b + 1 <= u64_max)%N); [|discriminate].
    apply IH in Hrun as (Hi & Ht & Htx & Hph & Hh' & Hp' & Hf'); simpl; auto.
    + simpl in *. repeat split; auto.
    + intros n Hn. simpl in Hn.
      destruct (decide (n < nonce b)%N); [now apply Hfail|].
      assert (n = nonce b) as -> by lia. rewrite <- Hp, Hh. reflexivity.
Qed.

Lemma prefix_repeat_zero d h :
  String.prefix (repeat_str d "0") h = true ->
  forall k, k < d -> String.get k h = Some "0"%char.
Proof.
  revert h. induction d as [|d IH]; intros h Hp k Hk; [lia|].
  destruct h as [|c h]; simpl in Hp; [discriminate|].
  case_match; [subst c|discriminate].
  destruct k as [|k]; [reflexivity|]. simpl. apply IH; [exact Hp|lia].
Qed.

(** C6: a block returned by [Block::new] (its nonce search having
    finished) has a hash whose first [difficulty] characters are all
    ['0'], the hash recomputed from its stored fields (index, timestamp,
    transactions, previous_hash, nonce) is its stored hash, its fields are
    the ones given, and every nonce below the final one (the search starts
    at 0 and recomputes the hash at each increment) gave a hash without
    that prefix. *)
Theorem Block_new_mined fuel now idx txs prev d b :
  Block_new fuel now idx txs prev d = Some b ->
  String.prefix (repeat_str d "0") (hash b) = true /\
  (forall k, k < d -> String.get k (hash b) = Some "0"%char) /\
  hash b = calculate_block_hash (index b) (timestamp b) (transactions b)
             (previous_hash b) (nonce b) /\
  index b = idx /\ timestamp b = now /\ transactions b = txs /\ previous_hash b = prev /\
  (forall n, (n < nonce b)%N ->
     String.prefix (repeat_str d "0") (calculate_block_hash idx now txs prev n) = false).
Proof.
  unfold Block_new, mine. intros Hrun.
  apply mine_loop_spec in Hrun as (Hi & Ht & Htx & Hph & Hh & Hp & Hf);
    [|reflexivity|intros n Hn; simpl in Hn; lia].
  simpl in *. repeat split; auto. apply prefix_repeat_zero. exact Hp.
Qed.

(* ------------------------------------------------------------------ *)
(** ** [add_block] decomposed *)

Lemma process_mempool_eq bc valid errs bc1 :
  process_mempool bc = (valid, errs, bc1) ->
  bc1 = set_mempool bc [] /\
  exists fin, process_txs (mempool bc) (accounts bc) = (valid, errs, fin).
Proof.
  unfold process_mempool. destruct (process_txs (mempool bc) (accounts bc)) as [[v e] f].
  intros H. injection H as -> -> <-. eauto.
Qed.

Lemma add_block_cases fuel now bc bc' valid errs bc1 :
  process_mempool bc = (valid, errs, bc1) ->
  add_block fuel now bc = Some bc' ->
  (valid = [] /\ bc' = bc1) \/
  (valid <> [] /\ exists lb nb, last (chain bc) = Some lb /\
     Block_new fuel now (index lb + 1) valid (hash lb) (difficulty bc) = Some nb /\
     ((is_valid (chain bc ++ [nb]) = false /\ bc' = set_chain bc1 (chain bc)) \/
      (is_valid (chain bc ++ [nb]) = true /\ exists acc,
         execute_transactions (accounts bc) valid = Some acc /\
         bc' = set_accounts (set_chain bc1 (chain bc ++ [nb])) acc))).
Proof.
  intros Hpm Hab. pose proof (process_mempool_eq _ _ _ _ Hpm) as [-> _].
  unfold add_block in Hab. rewrite Hpm in Hab.
  destruct valid as [|t ts]; [left; split; [done|congruence]|right].
  split; [done|]. cbn -[execute_transactions is_valid Block_new last] in Hab.
  destruct (last (chain bc)) as [lb|]; [|discriminate].
  destruct (decide (u32_max < index lb + 1)%N); [discriminate|].
  destruct (Block_new fuel now (index lb + 1) (t :: ts) (hash lb) (difficulty bc)) as [nb|]
    eqn:Hnb; [|discriminate].
  exists lb, nb. split; [done|]. split; [done|].
  destruct (is_valid (chain bc ++ [nb])) eqn:Hv; cbn [negb] in Hab.
  - right. split; [done|].
    destruct (execute_transactions (accounts bc) (t :: ts)) as [acc|]; [|discriminate].
    exists acc. split; [done|]. injection Hab as <-. reflexivity.
  - left. split; [done|]. injection Hab as <-. unfold set_chain. simpl.
    rewrite removelast_last. reflexivity.
Qed.

(* ------------------------------------------------------------------ *)
(** ** C1: rollback and commit *)

(** C1: when [add_block] returns and the mempool pass accepted a
    non-empty batch, a block is mined over it and appended; if [is_valid]
    then fails, the block is popped and the chain (hence its length) and
    the committed accounts are exactly as before the call; only if
    [is_valid] succeeds are the accounts replaced by
    [execute_transactions] of the batch (debit sender, credit receiver,
    in batch order) on the accounts as they were. *)
Theorem add_block_rollback_or_commit fuel now bc bc' valid errs bc1 :
  add_block fuel now bc = Some bc' ->
  process_mempool bc = (valid, errs, bc1) ->
  valid <> [] ->
  exists lb nb, last (chain bc) = Some lb /\
    Block_new fuel now (index lb + 1) valid (hash lb) (difficulty bc) = Some nb /\
    (is_valid (chain bc ++ [nb]) = false ->
       chain bc' = chain bc /\ List.length (chain bc') = List.length (chain bc) /\
       accounts bc' = accounts bc) /\
    (is_valid (chain bc ++ [nb]) = true ->
       chain bc' = (chain bc ++ [nb])%list /\
       execute_transactions (accounts bc) valid = Some (accounts bc')).
Proof.
  intros Hab Hpm Hne.
  pose proof (process_mempool_eq _ _ _ _ Hpm) as [Hbc1 _].
  destruct (add_block_cases _ _ _ _ _ _ _ Hpm Hab) as [[? _]|[_ (lb & nb & Hl & Hnb & Hc)]];
    [done|].
  exists lb, nb. split; [done|]. split; [done|].
  destruct Hc as [[Hv ->]|[Hv (acc & Hex & ->)]]; subst bc1; split; intros Hv';
    try congruence; simpl; auto.
Qed.

(* ------------------------------------------------------------------ *)
(** ** C7: nothing to include; the mempool is always drained *)

(** C7: when no transaction of the mempool validates (in particular when
    the mempool is empty), [add_block] returns with the same chain and the
    same committed accounts and an empty mempool; and whenever
    [add_block] returns (block appended, rolled back or not created), the
    mempool is empty. *)
Theorem add_block_drains_mempool fuel now bc valid errs bc1 :
  process_mempool bc = (valid, errs, bc1) ->
  (valid = [] ->
     add_block fuel now bc = Some bc1 /\ chain bc1 = chain bc /\
     accounts bc1 = accounts bc /\ mempool bc1 = []) /\
  (mempool bc = [] -> valid = []) /\
  (forall bc', add_block fuel now bc = Some bc' -> mempool bc' = []).
Proof.
  intros Hpm. pose proof (process_mempool_eq _ _ _ _ Hpm) as [Hbc1 [fin Htx]].
  split; [|split].
  - intros ->. unfold add_block. rewrite Hpm. subst bc1. repeat split.
  - intros Hm. rewrite Hm in Htx. simpl in Htx. congruence.
  - intros bc' Hab.
    destruct (add_block_cases _ _ _ _ _ _ _ Hpm Hab)
      as [[_ ->]|[_ (lb & nb & _ & _ & [[_ ->]|[_ (acc & _ & ->)]])]]; subst bc1; reflexivity.
Qed.

(* ------------------------------------------------------------------ *)
(** ** The projection of [process_mempool] and the commit *)

Ltac validate_cases H :=
  revert H; unfold validate_transaction_with_temp_balances;
  repeat case_match; intros ?Hv; simplify_eq.

Lemma validate_err_temp t temp e temp' :
  validate_transaction_with_temp_balances t temp = (Err e, temp') ->
  temp' = temp \/ temp' = entry_or_insert0 temp (receiver t).
Proof. intros H. validate_cases H; auto. Qed.

Lemma validate_err_bal t temp e temp' k :
  validate_transaction_with_temp_balances t temp = (Err e, temp') -> bal temp' k = bal temp k.
Proof.
  intros H. destruct (validate_err_temp _ _ _ _ H) as [->| ->]; [done|].
  apply bal_entry_or_insert0.
Qed.

Lemma validate_ok_inv t temp u temp' :
  validate_transaction_with_temp_balances t temp = (Ok u, temp') ->
  sender t <> receiver t /\ (amount t <= bal temp (sender t))%N /\
  (bal temp (receiver t) + amount t <= u64_max)%N /\
  forall k, bal temp' k =
    if decide (receiver t = k) then (bal temp (receiver t) + amount t)%N
    else if decide (sender t = k) then (bal temp (sender t) - amount t)%N
    else bal temp k.
Proof.
  intros H. validate_cases H.
  match goal with
  | Hsr : sender t <> receiver t,
    Hs : entry_or_insert0 temp (receiver t) !! sender t = Some ?b,
    Hlt : ~ (?b < amount t)%N,
    Hadd : checked_add _ _ = Some _ |- _ =>
      rewrite lookup_entry_or_insert0_ne in Hs by exact Hsr;
      assert (Hb : bal temp (sender t) = b) by (unfold bal; rewrite Hs; reflexivity);
      rewrite lookup_entry_or_insert0_eq in Hadd; simpl in Hadd;
      unfold checked_add in Hadd;
      destruct (decide (bal temp (receiver t) + amount t <= u64_max)%N); [|discriminate];
      repeat split; [exact Hsr|lia|lia|]
  end.
  intros k. rewrite lookup_entry_or_insert0_eq. simpl.
  repeat (rewrite bal_insert || rewrite bal_entry_or_insert0).
  repeat case_decide; subst; try congruence; lia.
Qed.

(** The [+= amount] on the receiver of a valid transaction stays within
    [u64] (the shortcut taken in [validate_transaction_with_temp_balances]). *)
Lemma validate_credit_in_range t temp u temp' :
  validate_transaction_with_temp_balances t temp = (Ok u, temp') ->
  (bal temp' (receiver t) <= u64_max)%N.
Proof.
  intros H. apply validate_ok_inv in H as (_ & _ & Hov & Hb).
  rewrite Hb. case_decide; [lia|congruence].
Qed.

Lemma execute_transactions_cons acc t rest :
  execute_transactions acc (t :: rest) =
  match checked_sub (bal acc (sender t)) (amount t) with
  | None => None
  | Some sb =>
      let a2 := entry_or_insert0 (<[sender t := sb]> (entry_or_insert0 acc (sender t)))
                  (receiver t) in
      match checked_add (bal (<[sender t := sb]> (entry_or_insert0 acc (sender t)))
                             (receiver t)) (amount t) with
      | None => None
      | Some rb => execute_transactions (<[receiver t := rb]> a2) rest
      end
  end.
Proof.
  cbn [execute_transactions]. rewrite lookup_entry_or_insert0_eq. cbn [default].
  destruct (checked_sub _ _); [|reflexivity].
  rewrite lookup_entry_or_insert0_eq. reflexivity.
Qed.

(** The commit replays the projection: whatever [process_txs] accepted
    from a projection that reads like [acc], [execute_transactions]
    applies to [acc] without a panic, and ends reading like the final
    projection. *)
Lemma process_txs_commit txs temp acc valid errs fin :
  (forall k, bal temp k = bal acc k) ->
  process_txs txs temp = (valid, errs, fin) ->
  exists acc', execute_transactions acc valid = Some acc' /\
    forall k, bal fin k = bal acc' k.
Proof.
  revert temp acc valid errs fin.
  induction txs as [|t txs IH]; intros temp acc valid errs fin Hsim Hrun; simpl in Hrun.
  - injection Hrun as <- <- <-. exists acc. split; [reflexivity|exact Hsim].
  - destruct (validate_transaction_with_temp_balances t temp) as [r temp'] eqn:Hv.
    destruct (process_txs txs temp') as [[v e] f] eqn:Hr.
    destruct r as [u|e0]; injection Hrun as <- <- <-.
    + apply validate_ok_inv in Hv as (Hsr & Hle & Hov & Hbal).
      rewrite execute_transactions_cons. unfold checked_sub, checked_add.
      rewrite <- Hsim. destruct (decide (amount t <= bal temp (sender t))%N); [|lia].
      rewrite bal_insert, bal_entry_or_insert0, <- Hsim.
      destruct (decide (sender t = receiver t)); [congruence|].
      destruct (decide _); [|lia].
      apply (IH temp' _ v e f); [|exact Hr].
      intros k. rewrite Hbal.
      repeat (rewrite bal_insert || rewrite bal_entry_or_insert0).
      repeat case_decide; subst; try congruence; rewrite ?Hsim; lia.
    + apply (IH temp' acc v e f); [|exact Hr].
      intros k. rewrite (validate_err_bal _ _ _ _ _ Hv). apply Hsim.
Qed.

(* ------------------------------------------------------------------ *)
(** ** C10: the commit never underflows or overflows *)

(** C10: for every ledger, the batch that [process_mempool] accepts
    (validated on a clone of the accounts) can be applied by
    [execute_transactions] to those same accounts without an underflow of
    a sender's or an overflow of a receiver's [u64] balance (no panic:
    the result is [Some]), and the committed balances are the final
    projection. *)
Theorem execute_after_process_mempool_safe bc valid errs bc1 :
  process_mempool bc = (valid, errs, bc1) ->
  exists acc, execute_transactions (accounts bc) valid = Some acc /\
    exists fin, process_txs (mempool bc) (accounts bc) = (valid, errs, fin) /\
      forall k, bal acc k = bal fin k.
Proof.
  intros Hpm. destruct (process_mempool_eq _ _ _ _ Hpm) as [_ [fin Hrun]].
  destruct (process_txs_commit _ _ (accounts bc) _ _ _ (fun k => eq_refl) Hrun)
    as (acc & Hex & Hb).
  exists acc. split; [exact Hex|]. exists fin. split; [exact Hrun|]. intros k. by rewrite Hb.
Qed.

(* ------------------------------------------------------------------ *)
(** ** Rejections write into the projection *)

Lemma validate_ok_lookup_sender t temp u temp' :
  validate_transaction_with_temp_balances t temp = (Ok u, temp') ->
  temp' !! sender t = Some (bal temp (sender t) - amount t)%N.
Proof.
  intros H. pose proof H as H'. apply validate_ok_inv in H' as (Hsr & _).
  validate_cases H.
  rewrite lookup_insert_ne by congruence.
  rewrite lookup_entry_or_insert0_ne by exact Hsr.
  rewrite lookup_insert_eq. f_equal. f_equal.
  match goal with Hs : entry_or_insert0 _ _ !! sender t = Some _ |- _ =>
    rewrite lookup_entry_or_insert0_ne in Hs by exact Hsr; unfold bal; rewrite Hs end.
  reflexivity.
Qed.

Lemma validate_keeps_keys t temp k :
  is_Some (temp !! k) ->
  is_Some ((validate_transaction_with_temp_balances t temp).2 !! k).
Proof.
  intros Hk. destruct (validate_transaction_with_temp_balances t temp) as [r temp'] eqn:H.
  simpl. validate_cases H; auto; try (apply is_Some_entry_or_insert0; exact Hk).
  rewrite lookup_insert_is_Some'. right.
  apply is_Some_entry_or_insert0. rewrite lookup_insert_is_Some'. right.
  apply is_Some_entry_or_insert0. exact Hk.
Qed.

Lemma validate_sdne t temp x temp' :
  validate_transaction_with_temp_balances t temp = (Err (SenderDoesNotExist x), temp') ->
  x = sender t /\ temp !! sender t = None.
Proof.
  intros H. pose proof (validate_check_order_eq t temp) as Hc.
  rewrite H in Hc. simpl in Hc. unfold validate_order_spec in Hc.
  repeat case_decide; try discriminate.
  destruct (temp !! sender t) eqn:Hs; [case_decide; discriminate|].
  injection Hc as <-. auto.
Qed.

(** Once an address has an entry in the projection, no later
    transaction of the pass is rejected with [SenderDoesNotExist] for it. *)
Lemma process_txs_no_sdne txs temp k valid errs fin :
  is_Some (temp !! k) ->
  process_txs txs temp = (valid, errs, fin) ->
  forall t', (t', SenderDoesNotExist k) ∉ errs.
Proof.
  revert temp valid errs fin.
  induction txs as [|t txs IH]; intros temp valid errs fin Hk Hrun t' Hin; simpl in Hrun.
  - injection Hrun as _ <- _. inversion Hin.
  - destruct (validate_transaction_with_temp_balances t temp) as [r temp'] eqn:Hv.
    destruct (process_txs txs temp') as [[v e] f] eqn:Hr.
    assert (Hk' : is_Some (temp' !! k)).
    { pose proof (validate_keeps_keys t temp k Hk) as HH. rewrite Hv in HH. exact HH. }
    destruct r as [u|e0]; injection Hrun as <- <- <-.
    + exact (IH _ _ _ _ Hk' Hr t' Hin).
    + apply elem_of_cons in Hin as [Heq|Hin].
      * injection Heq as _ He. subst e0. apply validate_sdne in Hv as [-> Hn].
        rewrite Hn in Hk. by destruct Hk.
      * exact (IH _ _ _ _ Hk' Hr t' Hin).
Qed.

(** A pass over [l1 ++ l2] is the pass over [l1] followed by the pass
    over [l2] from the projection [l1] leaves. *)
Lemma process_txs_app l1 l2 temp :
  process_txs (l1 ++ l2)%list temp =
  (fst (fst (process_txs l1 temp)) ++ fst (fst (process_txs l2 (snd (process_txs l1 temp)))),
   snd (fst (process_txs l1 temp)) ++ snd (fst (process_txs l2 (snd (process_txs l1 temp)))),
   snd (process_txs l2 (snd (process_txs l1 temp))))%list.
Proof.
  revert temp. induction l1 as [|t l1 IH]; intros temp; simpl.
  - destruct (process_txs l2 temp) as [[v e] f]. reflexivity.
  - destruct (validate_transaction_with_temp_balances t temp) as [r temp'].
    rewrite IH. destruct (process_txs l1 temp') as [[v1 e1] f1]. simpl.
    destruct (process_txs l2 f1) as [[v2 e2] f2] eqn:E2. simpl.
    destruct r; simpl; rewrite E2; reflexivity.
Qed.

Lemma process_txs_keeps_key txs temp k :
  is_Some (temp !! k) -> is_Some (snd (process_txs txs temp) !! k).
Proof.
  revert temp. induction txs as [|t txs IH]; intros temp Hk; simpl; [exact Hk|].
  pose proof (validate_keeps_keys t temp k Hk) as Hk'.
  destruct (validate_transaction_with_temp_balances t temp) as [r temp'].
  simpl in Hk'. specialize (IH _ Hk').
  destruct (process_txs txs temp') as [[v e] f]. destruct r; exact IH.
Qed.

(* ------------------------------------------------------------------ *)
(** ** C9 (amended): rejections are not read-only *)

(** C9 (amended): when [validate_transaction_with_temp_balances] rejects
    a transaction with [SenderDoesNotExist] or [InsufficientBalance], the
    projection it leaves is the one given with the receiver inserted at 0
    if it was absent. Hence no later transaction of the same pass is
    rejected with [SenderDoesNotExist] for that receiver. A later
    transaction from that receiver, after any transactions [mid] of the
    pass, that passes the address, amount and overflow checks is rejected
    with [InsufficientBalance] when the receiver's balance in the
    projection at that point is below its amount, and accepted otherwise
    (for instance when [mid] credited the receiver enough); the rest of
    the pass goes on from the projection that validation leaves. *)
Theorem rejected_validation_inserts_receiver t temp e temp' :
  validate_transaction_with_temp_balances t temp = (Err e, temp') ->
  (exists x, e = SenderDoesNotExist x) \/ (exists x y z, e = InsufficientBalance x y z) ->
  temp' = entry_or_insert0 temp (receiver t) /\
  temp' !! receiver t = Some (bal temp (receiver t)) /\
  (forall rest valid errs fin, process_txs rest temp' = (valid, errs, fin) ->
     forall t', (t', SenderDoesNotExist (receiver t)) ∉ errs) /\
  (forall mid t2 post, sender t2 = receiver t -> receiver t2 <> "" ->
     receiver t2 <> receiver t -> amount t2 <> 0%N ->
     let p := process_txs mid temp' in
     let temp2 := snd p in
     let q := process_txs post (snd (validate_transaction_with_temp_balances t2 temp2)) in
     (bal temp2 (receiver t2) + amount t2 <= u64_max)%N ->
     process_txs (mid ++ t2 :: post)%list temp' =
       if decide (bal temp2 (receiver t) < amount t2)%N then
         (fst (fst p) ++ fst (fst q),
          snd (fst p) ++
            (t2, InsufficientBalance (receiver t) (amount t2) (bal temp2 (receiver t)))
            :: snd (fst q),
          snd q)%list
       else
         (fst (fst p) ++ t2 :: fst (fst q), snd (fst p) ++ snd (fst q), snd q)%list).
Proof.
  intros H He.
  assert (Hpre : receiver t <> "" /\ temp' = entry_or_insert0 temp (receiver t)).
  { validate_cases H;
      destruct He as [[? ?]|(? & ? & ? & ?)]; try discriminate; split; auto. }
  destruct Hpre as [Hr ->].
  assert (Hlk : entry_or_insert0 temp (receiver t) !! receiver t = Some (bal temp (receiver t)))
    by apply lookup_entry_or_insert0_eq.
  split; [reflexivity|]. split; [exact Hlk|]. split.
  - intros rest valid errs fin Hrun. apply (process_txs_no_sdne rest _ _ _ _ _ (mk_is_Some _ _ Hlk) Hrun).
  - intros mid t2 post Hs Hr2 Hne Ha p temp2 q Hov.
    rewrite process_txs_app. fold p. fold temp2.
    assert (Hk : temp2 !! receiver t = Some (bal temp2 (receiver t))).
    { destruct (process_txs_keeps_key mid _ (receiver t) (mk_is_Some _ _ Hlk)) as [x Hx].
      fold p temp2 in Hx. unfold bal. rewrite Hx. reflexivity. }
    assert (Hv : fst (validate_transaction_with_temp_balances t2 temp2) =
      if decide (bal temp2 (receiver t) < amount t2)%N
      then Err (InsufficientBalance (receiver t) (amount t2) (bal temp2 (receiver t)))
      else Ok tt).
    { rewrite validate_check_order_eq. unfold validate_order_spec.
      rewrite Hs, Hk.
      destruct (decide (receiver t = "" \/ receiver t2 = "")) as [[]|]; [done|done|].
      destruct (decide (receiver t = receiver t2)); [congruence|].
      destruct (decide (amount t2 = 0%N)); [done|].
      destruct (decide (u64_max < bal temp2 (receiver t2) + amount t2)%N); [lia|].
      reflexivity. }
    cbn [process_txs]. unfold q.
    destruct (validate_transaction_with_temp_balances t2 temp2) as [r tmp]. simpl in Hv |- *.
    destruct (process_txs post tmp) as [[v3 e3] f3]. simpl.
    destruct (decide (bal temp2 (receiver t) < amount t2)%N); subst r; reflexivity.
Qed.

(* ------------------------------------------------------------------ *)
(** ** C3 (amended): two transfers from one sender in one pass *)

(** C3 (amended): with two transactions from one sender [s] in the
    mempool, each amount at most [s]'s committed balance [b] and their sum
    above it, both with non-empty addresses, receivers other than [s],
    and a first receiver credit that does not overflow, the pass accepts
    the first. It rejects the second with [InsufficientBalance] for the
    balance [b - a1] left after the first, unless crediting the second
    receiver in the projection (which already holds the first credit when
    both receivers are the same) would overflow [u64]: then the second is
    rejected with [BalanceOverflow], the check that runs first. *)
Theorem same_sender_running_balance bc s r1 r2 a1 a2 b :
  mempool bc = [Transaction_new s r1 a1; Transaction_new s r2 a2] ->
  accounts bc !! s = Some b ->
  (a1 <= b)%N -> (a2 <= b)%N -> (b < a1 + a2)%N ->
  s <> "" -> r1 <> "" -> r2 <> "" -> s <> r1 -> s <> r2 ->
  (bal (accounts bc) r1 + a1 <= u64_max)%N ->
  fst (fst (process_mempool bc)) = [Transaction_new s r1 a1] /\
  snd (fst (process_mempool bc)) =
    [(Transaction_new s r2 a2,
      if decide (u64_max < bal (accounts bc) r2 + (if decide (r1 = r2) then a1 else 0) + a2)%N
      then BalanceOverflow
      else InsufficientBalance s a2 (b - a1))].
Proof.
  intros Hm Hs H1 H2 Hsum Hse Hr1 Hr2 Hsr1 Hsr2 Hov1.
  unfold process_mempool. rewrite Hm. cbn [process_txs].
  set (t1 := Transaction_new s r1 a1). set (t2 := Transaction_new s r2 a2).
  assert (Hb : bal (accounts bc) s = b) by (unfold bal; rewrite Hs; reflexivity).
  destruct (validate_transaction_with_temp_balances t1 (accounts bc)) as [v1 temp1] eqn:Hv1.
  assert (Hok : v1 = Ok tt).
  { pose proof (validate_check_order_eq t1 (accounts bc)) as Hc.
    rewrite Hv1 in Hc. simpl in Hc. rewrite Hc. unfold validate_order_spec. simpl.
    rewrite Hs.
    destruct (decide (s = "" \/ r1 = "")) as [[]|]; [done|done|].
    destruct (decide (s = r1)); [done|].
    destruct (decide (a1 = 0%N)); [lia|].
    destruct (decide (u64_max < bal (accounts bc) r1 + a1)%N); [lia|].
    destruct (decide (b < a1)%N); [lia|reflexivity]. }
  subst v1.
  pose proof (validate_ok_inv _ _ _ _ Hv1) as (_ & _ & _ & Hbal).
  pose proof (validate_ok_lookup_sender _ _ _ _ Hv1) as Hs1. simpl in Hbal, Hs1.
  destruct (validate_transaction_with_temp_balances t2 temp1) as [v2 temp2] eqn:Hv2.
  assert (Herr : v2 =
    Err (if decide (u64_max < bal (accounts bc) r2 + (if decide (r1 = r2) then a1 else 0) + a2)%N
         then BalanceOverflow else InsufficientBalance s a2 (b - a1))).
  { pose proof (validate_check_order_eq t2 temp1) as Hc.
    rewrite Hv2 in Hc. simpl in Hc. rewrite Hc. unfold validate_order_spec. simpl.
    rewrite Hs1, Hb, Hbal.
    destruct (decide (s = "" \/ r2 = "")) as [[]|]; [done|done|].
    destruct (decide (s = r2)); [done|].
    destruct (decide (a2 = 0%N)); [lia|].
    destruct (decide (r1 = r2)) as [<-|Hne12].
    - destruct (decide (u64_max < bal (accounts bc) r1 + a1 + a2)%N); [reflexivity|].
      destruct (decide (b - a1 < a2)%N); [reflexivity|lia].
    - destruct (decide (s = r2)); [done|].
      replace (bal (accounts bc) r2 + 0 + a2)%N with (bal (accounts bc) r2 + a2)%N by lia.
      destruct (decide (u64_max < bal (accounts bc) r2 + a2)%N); [reflexivity|].
      destruct (decide (b - a1 < a2)%N); [reflexivity|lia]. }
  subst v2. split; reflexivity.
Qed.

(* ------------------------------------------------------------------ *)
(** ** C8 (amended): [format_amount] *)

Lemma length_append (s1 s2 : string) :
  String.length (s1 +:+ s2) = String.length s1 + String.length s2.
Proof. induction s1 as [|c s1 IH]; simpl; [reflexivity|]. by rewrite IH. Qed.

Lemma length_repeat_zero n : String.length (repeat_str n "0") = n.
Proof. induction n as [|n IH]; simpl; [reflexivity|]. rewrite length_append. simpl. by rewrite IH. Qed.

Lemma length_pad_zeros w s :
  String.length s <= w -> String.length (pad_zeros w s) = w.
Proof. intros H. unfold pad_zeros. rewrite length_append, length_repeat_zero. lia. Qed.

Lemma dec_digits_length fuel n acc k :
  1 <= k -> (n < 10 ^ N.of_nat k)%N ->
  String.length (dec_digits fuel n acc) <= String.length acc + k.
Proof.
  revert n acc k. induction fuel as [|fuel IH]; intros n acc k Hk Hn; simpl; [lia|].
  case_decide as Hq; simpl; [lia|].
  destruct k as [|k]; [lia|].
  rewrite Nat2N.inj_succ, N.pow_succ_r' in Hn.
  assert (Hk' : 1 <= k).
  { destruct k as [|k]; [|lia]. exfalso. apply Hq. apply N.div_small. simpl in Hn. lia. }
  assert (Hn' : (n / 10 < 10 ^ N.of_nat k)%N) by (apply N.Div0.div_lt_upper_bound; lia).
  specialize (IH (n / 10)%N (String (digit_char (n mod 10)) acc) k Hk' Hn'). simpl in IH. lia.
Qed.

Lemma N_to_string_length n d :
  (1 <= d)%N -> (n < 10 ^ d)%N -> String.length (N_to_string n) <= N.to_nat d.
Proof.
  intros Hd Hn. unfold N_to_string.
  pose proof (dec_digits_length (S (N.to_nat (N.log2 n))) n "" (N.to_nat d)) as H.
  rewrite N2Nat.id in H. simpl in H. apply H; [lia|exact Hn].
Qed.

(** C8 (amended): for a token built by [Token::new] with [decimals = d]
    ([smallest_unit = 10^d]) and every amount, [format_amount] returns
    ["{whole}.{fractional}"] with [whole = amount / smallest_unit] and
    [fractional = amount % smallest_unit] (integer division), the
    fractional part left-padded with zeros to width [d]: it has exactly
    [d] digits when [d >= 1], and is ["0"] when [d = 0]. For [d = 8],
    [format_amount 0 = "0.00000000"] and
    [format_amount (smallest_unit * 10) = "10.00000000"]. *)
Theorem format_amount_spec name symbol d supply t amount :
  Token_new name symbol d supply = Some t ->
  smallest_unit t = (10 ^ d)%N /\
  format_amount t amount =
    Some (N_to_string (amount / 10 ^ d) +:+ "." +:+
          pad_zeros (N.to_nat d) (N_to_string (amount mod 10 ^ d))) /\
  ((1 <= d)%N ->
     String.length (pad_zeros (N.to_nat d) (N_to_string (amount mod 10 ^ d))) = N.to_nat d) /\
  (d = 0%N -> pad_zeros (N.to_nat d) (N_to_string (amount mod 10 ^ d)) = "0") /\
  (d = 8%N -> format_amount t 0 = Some "0.00000000" /\
              format_amount t (smallest_unit t * 10) = Some "10.00000000").
Proof.
  unfold Token_new. case_decide; [|discriminate]. intros Ht. injection Ht as <-.
  assert (Hnz : (10 ^ d)%N <> 0%N) by (apply N.pow_nonzero; lia).
  assert (Hfmt : forall a, format_amount
      {| token_name := name; token_symbol := symbol; decimals := d;
         smallest_unit := 10 ^ d; total_supply := supply |} a =
      Some (N_to_string (a / 10 ^ d) +:+ "." +:+
            pad_zeros (N.to_nat d) (N_to_string (a mod 10 ^ d)))).
  { intros a. unfold format_amount. simpl. case_decide; [contradiction|reflexivity]. }
  split; [reflexivity|]. split; [apply Hfmt|]. split; [|split].
  - intros Hd. apply length_pad_zeros. apply N_to_string_length; [exact Hd|].
    apply N.mod_lt. exact Hnz.
  - intros ->. change (10 ^ 0)%N with 1%N. rewrite N.mod_1_r. reflexivity.
  - intros ->. rewrite !Hfmt. split; vm_compute; reflexivity.
Qed.

(* ------------------------------------------------------------------ *)
(** ** C2 (amended): chain linkage *)

(** Replacing block [i] by a block with the same stored hash: the pairs not
    ending at [i] are those of the old chain, the pair ending at [i] now
    checks the new block. *)
Lemma links_ok_insert (c : list Block) i b b' :
  c !! i = Some b -> hash b' = hash b ->
  links_ok (<[i:=b']> c) <->
  (forall j prv cur, S j <> i -> c !! j = Some prv -> c !! S j = Some cur ->
     previous_hash cur = hash prv /\ block_hash_of cur = hash cur) /\
  (forall j prv, S j = i -> c !! j = Some prv ->
     previous_hash b' = hash prv /\ block_hash_of b' = hash b').
Proof.
  intros Hi Hh. pose proof (lookup_lt_Some _ _ _ Hi) as Hlt. unfold links_ok. split.
  - intros H. split.
    + intros j prv cur Hj Hp Hc. destruct (decide (j = i)) as [->|Hji].
      * rewrite Hi in Hp. injection Hp as <-. rewrite <- Hh. apply (H i b' cur).
        -- by apply list_lookup_insert_eq.
        -- rewrite list_lookup_insert_ne by lia. done.
      * apply (H j prv cur); rewrite list_lookup_insert_ne by lia; done.
    + intros j prv Hj Hp. apply (H j prv b').
      * rewrite list_lookup_insert_ne by lia. done.
      * rewrite Hj. by apply list_lookup_insert_eq.
  - intros [H1 H2] j prv cur Hp Hc. destruct (decide (j = i)) as [->|Hji].
    + rewrite list_lookup_insert_eq in Hp by done. injection Hp as <-.
      rewrite list_lookup_insert_ne in Hc by lia. rewrite Hh. by apply (H1 i b cur); [lia| |].
    + rewrite list_lookup_insert_ne in Hp by lia. destruct (decide (S j = i)) as [Hsj|Hsj].
      * rewrite <- Hsj, list_lookup_insert_eq in Hc by lia. injection Hc as <-.
        by apply (H2 j prv).
      * rewrite list_lookup_insert_ne in Hc by lia. by apply (H1 j prv cur).
Qed.

(** C2 (amended): a freshly built ledger (one genesis block) is valid;
    [add_block] keeps the chain valid; replacing a block at index [i >= 1]
    by a mutated block that keeps the stored [hash] makes [is_valid] false
    when its [previous_hash] changed, and otherwise gives exactly whether the
    hash recomputed from the mutated fields still equals the stored [hash]
    (it is false unless the mutation leaves the hash input unchanged or
    collides); replacing the genesis block (index 0) by any block with the
    same stored [hash] never changes [is_valid]: the genesis block's own
    fields are not checked. *)
Theorem is_valid_chain_linkage :
  (forall fuel now cfg bc, Blockchain_new fuel now cfg = Some (Ok bc) ->
     is_valid (chain bc) = true) /\
  (forall fuel now bc bc', is_valid (chain bc) = true ->
     add_block fuel now bc = Some bc' -> is_valid (chain bc') = true) /\
  (forall c i b b', is_valid c = true -> 1 <= i -> c !! i = Some b ->
     hash b' = hash b -> previous_hash b' <> previous_hash b ->
     is_valid (<[i:=b']> c) = false) /\
  (forall c i b b', is_valid c = true -> 1 <= i -> c !! i = Some b ->
     hash b' = hash b -> previous_hash b' = previous_hash b ->
     is_valid (<[i:=b']> c) = String.eqb (block_hash_of b') (hash b')) /\
  (forall c g g', c !! 0 = Some g -> hash g' = hash g ->
     is_valid (<[0:=g']> c) = is_valid c).
Proof.
  split; [|split; [|split; [|split]]].
  - intros fuel now cfg bc H. unfold Blockchain_new in H.
    case_decide; [discriminate|].
    destruct (Token_new _ _ _ _); [|discriminate].
    destruct (Block_new _ _ _ _ _ _) as [g|]; [|discriminate].
    injection H as <-. apply is_valid_links, links_ok_single.
  - intros fuel now bc bc' Hv Hab.
    destruct (process_mempool bc) as [[v e] b1] eqn:Hpm.
    pose proof (process_mempool_eq _ _ _ _ Hpm) as [-> _].
    destruct (add_block_cases _ _ _ _ _ _ _ Hpm Hab)
      as [[_ ->]|[_ [lb [nb [_ [_ [[_ ->]|[Hv' [acc [_ ->]]]]]]]]]]; done.
  - intros c i b b' Hv Hi Hb Hh Hp. apply not_true_is_false. intros Hv'.
    apply is_valid_links in Hv, Hv'.
    rewrite <- (list_insert_id c i b Hb) in Hv.
    apply (links_ok_insert c i b b Hb eq_refl) in Hv as [_ Hold].
    apply (links_ok_insert c i b b' Hb Hh) in Hv' as [_ Hnew].
    pose proof (lookup_lt_Some _ _ _ Hb) as Hlen.
    destruct (lookup_lt_is_Some_2 c (i - 1)) as [prv Hprv]; [lia|].
    destruct (Hold (i - 1) prv) as [E1 _]; [lia|done|].
    destruct (Hnew (i - 1) prv) as [E2 _]; [lia|done|].
    congruence.
  - intros c i b b' Hv Hi Hb Hh Hp. apply is_valid_links in Hv.
    rewrite <- (list_insert_id c i b Hb) in Hv.
    apply (links_ok_insert c i b b Hb eq_refl) in Hv as [Hrest Hold].
    pose proof (lookup_lt_Some _ _ _ Hb) as Hlen.
    destruct (lookup_lt_is_Some_2 c (i - 1)) as [prv Hprv]; [lia|].
    destruct (String.eqb (block_hash_of b') (hash b')) eqn:E.
    + apply String.eqb_eq in E. apply is_valid_links.
      apply (links_ok_insert c i b b' Hb Hh). split; [done|].
      intros j prv' Hj Hp'. split; [|done].
      rewrite Hp. by apply (Hold j prv').
    + apply not_true_is_false. intros Hv'. apply is_valid_links in Hv'.
      apply (links_ok_insert c i b b' Hb Hh) in Hv' as [_ Hnew].
      destruct (Hnew (i - 1) prv) as [_ E']; [lia|done|].
      apply String.eqb_eq in E'. congruence.
  - intros c g g' Hg Hh.
    assert (Hiff : links_ok (<[0:=g']> c) <-> links_ok c).
    { assert (Hc : links_ok c <-> links_ok (<[0:=g]> c)) by (rewrite list_insert_id; done).
      rewrite Hc, (links_ok_insert c 0 g g' Hg Hh), (links_ok_insert c 0 g g Hg eq_refl).
      split; intros [H1 _]; split; [done| intros; lia | done | intros; lia]. }
    destruct (is_valid c) eqn:E1, (is_valid (<[0:=g']> c)) eqn:E2; try reflexivity.
    + apply is_valid_links in E1. apply Hiff, is_valid_links in E1. congruence.
    + apply is_valid_links in E2. apply Hiff, is_valid_links in E2. congruence.
Qed.

(* ------------------------------------------------------------------ *)
(** ** Witnesses *)

Lemma add_block_rollback_or_commit_witness :
  add_block 500 now1 ledger_ab = Some ledger1 /\
  process_mempool ledger_ab = (fst (fst (process_mempool ledger_ab)),
                               snd (fst (process_mempool ledger_ab)),
                               snd (process_mempool ledger_ab)) /\
  fst (fst (process_mempool ledger_ab)) <> [] /\
  exists lb nb, last (chain ledger_ab) = Some lb /\
    Block_new 500 now1 (index lb + 1) (fst (fst (process_mempool ledger_ab))) (hash lb)
      (difficulty ledger_ab) = Some nb /\
    (is_valid (chain ledger_ab ++ [nb]) = false ->
       chain ledger1 = chain ledger_ab /\
       List.length (chain ledger1) = List.length (chain ledger_ab) /\
       accounts ledger1 = accounts ledger_ab) /\
    (is_valid (chain ledger_ab ++ [nb]) = true ->
       chain ledger1 = (chain ledger_ab ++ [nb])%list /\
       execute_transactions (accounts ledger_ab) (fst (fst (process_mempool ledger_ab)))
         = Some (accounts ledger1)).
Proof.
  assert (H1 : add_block 500 now1 ledger_ab = Some ledger1) by (vm_compute; reflexivity).
  assert (H2 : process_mempool ledger_ab = (fst (fst (process_mempool ledger_ab)),
                               snd (fst (process_mempool ledger_ab)),
                               snd (process_mempool ledger_ab))) by (vm_compute; reflexivity).
  assert (H3 : fst (fst (process_mempool ledger_ab)) <> []) by (vm_compute; discriminate).
  split; [exact H1|]. split; [exact H2|]. split; [exact H3|].
  exact (add_block_rollback_or_commit _ _ _ _ _ _ _ H1 H2 H3).
Defined.

Lemma Block_new_mined_witness :
  Block_new 200 now0 0 [] "genesis_name" 1 = Some genesis0 /\
  String.prefix (repeat_str 1 "0") (hash genesis0) = true /\
  (forall k, k < 1 -> String.get k (hash genesis0) = Some "0"%char) /\
  hash genesis0 = calculate_block_hash (index genesis0) (timestamp genesis0)
    (transactions genesis0) (previous_hash genesis0) (nonce genesis0) /\
  index genesis0 = 0%N /\ timestamp genesis0 = now0 /\ transactions genesis0 = [] /\
  previous_hash genesis0 = "genesis_name" /\
  (forall n, (n < nonce genesis0)%N ->
     String.prefix (repeat_str 1 "0") (calculate_block_hash 0 now0 [] "genesis_name" n) = false).
Proof.
  assert (H : Block_new 200 now0 0 [] "genesis_name" 1 = Some genesis0)
    by (vm_compute; reflexivity).
  split; [exact H|]. exact (Block_new_mined _ _ _ _ _ _ _ H).
Defined.

Lemma add_block_drains_mempool_witness :
  process_mempool ledger0 = ([], [], set_mempool ledger0 []) /\
  ([] = ([] : list Transaction) ->
     add_block 7 now1 ledger0 = Some (set_mempool ledger0 []) /\
     chain (set_mempool ledger0 []) = chain ledger0 /\
     accounts (set_mempool ledger0 []) = accounts ledger0 /\
     mempool (set_mempool ledger0 []) = []) /\
  (mempool ledger0 = [] -> ([] : list Transaction) = []) /\
  (forall bc', add_block 7 now1 ledger0 = Some bc' -> mempool bc' = []).
Proof.
  assert (H : process_mempool ledger0 = ([], [], set_mempool ledger0 []))
    by (vm_compute; reflexivity).
  split; [exact H|]. exact (add_block_drains_mempool 7 now1 _ _ _ _ H).
Defined.


Lemma same_sender_running_balance_witness :
  mempool ledger_ab = [Transaction_new "A" "B" 50; Transaction_new "A" "C" 60] /\
  accounts ledger_ab !! "A" = Some 100%N /\
  fst (fst (process_mempool ledger_ab)) = [Transaction_new "A" "B" 50] /\
  snd (fst (process_mempool ledger_ab)) =
    [(Transaction_new "A" "C" 60,
      if decide (u64_max < bal (accounts ledger_ab) "C" + (if decide ("B" = "C") then 50 else 0) + 60)%N
      then BalanceOverflow
      else InsufficientBalance "A" 60 (100 - 50))].
Proof.
  assert (Hm : mempool ledger_ab = [Transaction_new "A" "B" 50; Transaction_new "A" "C" 60])
    by reflexivity.
  assert (Hs : accounts ledger_ab !! "A" = Some 100%N) by (vm_compute; reflexivity).
  split; [exact Hm|]. split; [exact Hs|].
  apply (same_sender_running_balance ledger_ab "A" "B" "C" 50 60 100 Hm Hs);
    try (vm_compute; discriminate); try (vm_compute; congruence); try lia;
    vm_compute; congruence.
Defined.

Lemma rejected_validation_inserts_receiver_witness :
  let t := Transaction_new "X" "R" 5 in
  let temp := accounts ledger_c9 in
  let temp' := entry_or_insert0 temp "R" in
  validate_transaction_with_temp_balances t temp = (Err (SenderDoesNotExist "X"), temp') /\
  ((exists x, SenderDoesNotExist "X" = SenderDoesNotExist x) \/
   (exists x y z, SenderDoesNotExist "X" = InsufficientBalance x y z)) /\
  temp' = entry_or_insert0 temp (receiver t) /\
  temp' !! receiver t = Some (bal temp (receiver t)) /\
  (forall rest valid errs fin, process_txs rest temp' = (valid, errs, fin) ->
     forall t', (t', SenderDoesNotExist (receiver t)) ∉ errs) /\
  (forall mid t2 post, sender t2 = receiver t -> receiver t2 <> "" ->
     receiver t2 <> receiver t -> amount t2 <> 0%N ->
     let p := process_txs mid temp' in
     let temp2 := snd p in
     let q := process_txs post (snd (validate_transaction_with_temp_balances t2 temp2)) in
     (bal temp2 (receiver t2) + amount t2 <= u64_max)%N ->
     process_txs (mid ++ t2 :: post)%list temp' =
       if decide (bal temp2 (receiver t) < amount t2)%N then
         (fst (fst p) ++ fst (fst q),
          snd (fst p) ++
            (t2, InsufficientBalance (receiver t) (amount t2) (bal temp2 (receiver t)))
            :: snd (fst q),
          snd q)%list
       else
         (fst (fst p) ++ t2 :: fst (fst q), snd (fst p) ++ snd (fst q), snd q)%list).
Proof.
  intros t temp temp'.
  assert (H : validate_transaction_with_temp_balances t temp = (Err (SenderDoesNotExist "X"), temp'))
    by (vm_compute; reflexivity).
  assert (He : (exists x, SenderDoesNotExist "X" = SenderDoesNotExist x) \/
   (exists x y z, SenderDoesNotExist "X" = InsufficientBalance x y z)) by (left; eauto).
  split; [exact H|]. split; [exact He|].
  exact (rejected_validation_inserts_receiver _ _ _ _ H He).
Defined.

Lemma execute_after_process_mempool_safe_witness :
  process_mempool ledger_ab =
    ([Transaction_new "A" "B" 50],
     [(Transaction_new "A" "C" 60, InsufficientBalance "A" 60 50)],
     set_mempool ledger_ab []) /\
  exists acc, execute_transactions (accounts ledger_ab) [Transaction_new "A" "B" 50] = Some acc /\
    exists fin, process_txs (mempool ledger_ab) (accounts ledger_ab) =
      ([Transaction_new "A" "B" 50],
       [(Transaction_new "A" "C" 60, InsufficientBalance "A" 60 50)], fin) /\
      forall k, bal acc k = bal fin k.
Proof.
  assert (H : process_mempool ledger_ab =
    ([Transaction_new "A" "B" 50],
     [(Transaction_new "A" "C" 60, InsufficientBalance "A" 60 50)],
     set_mempool ledger_ab [])) by (vm_compute; reflexivity).
  split; [exact H|]. exact (execute_after_process_mempool_safe _ _ _ _ H).
Defined.

Lemma format_amount_spec_witness :
  Token_new "test_name" "test_symbol" 8 21000000000 = Some token8 /\
  smallest_unit token8 = (10 ^ 8)%N /\
  format_amount token8 12345678901 =
    Some (N_to_string (12345678901 / 10 ^ 8) +:+ "." +:+
          pad_zeros (N.to_nat 8) (N_to_string (12345678901 mod 10 ^ 8))) /\
  ((1 <= 8)%N ->
     String.length (pad_zeros (N.to_nat 8) (N_to_string (12345678901 mod 10 ^ 8))) = N.to_nat 8) /\
  (8%N = 0%N -> pad_zeros (N.to_nat 8) (N_to_string (12345678901 mod 10 ^ 8)) = "0") /\
  (8%N = 8%N -> format_amount token8 0 = Some "0.00000000" /\
              format_amount token8 (smallest_unit token8 * 10) = Some "10.00000000").
Proof.
  assert (H : Token_new "test_name" "test_symbol" 8 21000000000 = Some token8)
    by (vm_compute; reflexivity).
  split; [exact H|]. exact (format_amount_spec _ _ _ _ _ 12345678901 H).
Defined.

Lemma is_valid_chain_linkage_witness :
  is_valid (chain ledger1) = true /\
  chain ledger1 !! 1 = Some block1 /\
  is_valid (<[1:=block1_retx]> (chain ledger1)) =
    String.eqb (block_hash_of block1_retx) (hash block1_retx) /\
  is_valid (<[0:=genesis0_retimed]> (chain ledger1)) = is_valid (chain ledger1).
Proof.
  assert (Hv : is_valid (chain ledger1) = true) by (vm_compute; reflexivity).
  assert (Hb : chain ledger1 !! 1 = Some block1) by (vm_compute; reflexivity).
  assert (Hg : chain ledger1 !! 0 = Some genesis0) by (vm_compute; reflexivity).
  destruct is_valid_chain_linkage as (_ & _ & _ & H4 & H5).
  split; [exact Hv|]. split; [exact Hb|]. split.
  - exact (H4 _ 1 _ block1_retx Hv (le_n 1) Hb eq_refl eq_refl).
  - exact (H5 _ _ genesis0_retimed Hg eq_refl).
Defined.

(* ------------------------------------------------------------------ *)
(** ** Counterexamples *)

(** The genesis block's own fields are never checked: the freshly built
    ledger stays valid when its genesis timestamp is changed, and
    [ledger1] stays valid when the transactions of its committed block 1
    are changed from [A -> B 50] to [A -> B5 0] (same hash input). *)
Lemma is_valid_mutation_counterexample :
  is_valid (chain ledger0) = true /\
  chain ledger0 = [genesis0] /\
  timestamp genesis0_retimed <> timestamp genesis0 /\
  is_valid [genesis0_retimed] = true /\
  chain ledger1 !! 1 = Some block1 /\
  transactions block1_retx <> transactions block1 /\
  is_valid (<[1:=block1_retx]> (chain ledger1)) = true.
Proof. vm_compute. repeat split; try reflexivity; discriminate. Qed.

(** Two transfers from [A] (balance 10) of 6 each: the second is rejected
    with [BalanceOverflow], not [InsufficientBalance], though 10 - 6 < 6. *)
Lemma same_sender_overflow_counterexample :
  accounts ledger_c3 !! "A" = Some 10%N /\
  fst (fst (process_mempool ledger_c3)) = [Transaction_new "A" "C" 6] /\
  snd (fst (process_mempool ledger_c3)) = [(Transaction_new "A" "B" 6, BalanceOverflow)].
Proof. vm_compute. repeat split; reflexivity. Qed.

(** [X -> R 5] is rejected with [SenderDoesNotExist]; the later [R -> Y 5]
    is accepted (after [A -> R 10]), not rejected with [InsufficientBalance]. *)
Lemma receiver_of_rejected_counterexample :
  accounts ledger_c9 !! "R" = None /\
  fst (fst (process_mempool ledger_c9)) =
    [Transaction_new "A" "R" 10; Transaction_new "R" "Y" 5] /\
  snd (fst (process_mempool ledger_c9)) =
    [(Transaction_new "X" "R" 5, SenderDoesNotExist "X")].
Proof. vm_compute. repeat split; reflexivity. Qed.

(** With [decimals = 0] the fractional part is ["0"], one digit, not zero
    digits: [format_amount 5 = "5.0"]. *)
Lemma format_amount_zero_decimals_counterexample :
  Token_new "test_name" "test_symbol" 0 21000000000 = Some token0 /\
  format_amount token0 5 = Some "5.0" /\
  String.length (N_to_string (5 mod smallest_unit token0)) = 1 /\
  N.to_nat (decimals token0) = 0.
Proof. vm_compute. repeat split; reflexivity. Qed.

(* ------------------------------------------------------------------ *)
(** * Further properties of the code *)

(** ** Decimal formatting and the hash input *)

Lemma string_app_assoc (s1 s2 s3 : string) : (s1 +:+ s2) +:+ s3 = s1 +:+ (s2 +:+ s3).
Proof.
  induction s1 as [|c s1 IH]; [reflexivity|].
  change (String c ((s1 +:+ s2) +:+ s3) = String c (s1 +:+ (s2 +:+ s3))). by rewrite IH.
Qed.

Lemma dec_digits_acc fuel n acc : dec_digits fuel n acc = dec_digits fuel n "" +:+ acc.
Proof.
  revert n acc. induction fuel as [|fuel IH]; intros n acc; simpl; [reflexivity|].
  case_decide; [reflexivity|].
  rewrite (IH _ (String _ acc)), (IH _ (String _ "")), string_app_assoc. reflexivity.
Qed.

Lemma dec_digits_fuel f f' n acc :
  1 <= f -> 1 <= f' -> (n < 2 ^ N.of_nat f)%N -> (n < 2 ^ N.of_nat f')%N ->
  dec_digits f n acc = dec_digits f' n acc.
Proof.
  revert f' n acc. induction f as [|f IH]; intros f' n acc Hf Hf' Hn Hn'; [lia|].
  destruct f' as [|f']; [lia|]. simpl. case_decide as Hq; [reflexivity|].
  rewrite Nat2N.inj_succ, N.pow_succ_r' in Hn, Hn'.
  assert (Hsmall : forall g, (n < 2 * 2 ^ N.of_nat g)%N -> 1 <= g).
  { intros g Hg. destruct g as [|g]; [|lia]. exfalso. apply Hq. apply N.div_small.
    simpl in Hg. lia. }
  apply IH.
  - apply Hsmall. exact Hn.
  - apply Hsmall. exact Hn'.
  - apply N.Div0.div_lt_upper_bound. lia.
  - apply N.Div0.div_lt_upper_bound. lia.
Qed.

Lemma N_to_string_small d : (d < 10)%N -> N_to_string d = String (digit_char d) "".
Proof.
  intros H. unfold N_to_string. cbn [dec_digits]. case_decide as Hq.
  - rewrite N.mod_small by lia. reflexivity.
  - exfalso. apply Hq. apply N.div_small. lia.
Qed.

(** [format!("{}", a)] for [a >= 10] is the digits of [a / 10] followed by
    the last digit. *)
Lemma N_to_string_split a :
  (10 <= a)%N -> N_to_string a = N_to_string (a / 10) +:+ N_to_string (a mod 10).
Proof.
  intros Ha. rewrite (N_to_string_small (a mod 10)) by (apply N.mod_lt; lia).
  assert (Hq1 : (1 <= a / 10)%N) by (apply N.div_le_lower_bound; lia).
  assert (Hl3 : (3 <= N.log2 a)%N).
  { change 3%N with (N.log2 8). apply N.log2_le_mono. lia. }
  unfold N_to_string at 1. cbn [dec_digits]. case_decide as Hq; [lia|].
  rewrite dec_digits_acc. f_equal. unfold N_to_string. apply dec_digits_fuel.
  - lia.
  - lia.
  - rewrite N2Nat.id. destruct (N.log2_spec a) as [_ Hup]; [lia|].
    rewrite N.pow_succ_r' in Hup. apply N.Div0.div_lt_upper_bound. lia.
  - rewrite Nat2N.inj_succ, N2Nat.id. apply N.log2_spec. lia.
Qed.

Lemma dec_digits_nonempty f n acc : 1 <= f -> dec_digits f n acc <> "".
Proof.
  revert n acc. induction f as [|f IH]; intros n acc Hf; [lia|]. simpl.
  case_decide; [discriminate|]. destruct f as [|f]; [discriminate|]. apply IH. lia.
Qed.

Lemma transactions_string_app l1 l2 :
  transactions_string (l1 ++ l2) = transactions_string l1 +:+ transactions_string l2.
Proof.
  induction l1 as [|t l1 IH]; cbn [transactions_string app]; [reflexivity|].
  by rewrite IH, string_app_assoc.
Qed.

Lemma stringify_digit_shift s r a :
  (10 <= a)%N ->
  stringify (Transaction_new s (r +:+ N_to_string (a / 10)) (a mod 10)) =
  stringify (Transaction_new s r a).
Proof.
  intros Ha. unfold stringify. simpl. rewrite (N_to_string_split a Ha).
  rewrite !string_app_assoc. reflexivity.
Qed.

(** X: [Transaction::stringify] writes sender, receiver and amount with no
    separator: moving the leading digits of an amount of at least 10 to the
    end of the receiver gives the same string. *)
Theorem stringify_amount_digit_shift s r a :
  (10 <= a)%N ->
  stringify (Transaction_new s (r +:+ N_to_string (a / 10)) (a mod 10)) =
  stringify (Transaction_new s r a).
Proof. exact (stringify_digit_shift s r a). Qed.

(** X: in a valid chain, replacing in any block (the genesis block
    included) a transfer [s -> r] of [a >= 10] by [s -> r ++ digits(a/10)]
    of [a mod 10] gives different transactions with the same recomputed
    hash, and [is_valid] still holds. *)
Theorem amount_digit_shift_keeps_chain_valid c i b pre s r a post :
  is_valid c = true -> c !! i = Some b ->
  transactions b = (pre ++ Transaction_new s r a :: post)%list -> (10 <= a)%N ->
  let b' := set_transactions b
              (pre ++ Transaction_new s (r +:+ N_to_string (a / 10)) (a mod 10) :: post)%list in
  transactions b' <> transactions b /\ block_hash_of b' = block_hash_of b /\
  is_valid (<[i:=b']> c) = true.
Proof.
  intros Hv Hb Htx Ha b'.
  assert (Hh : block_hash_of b' = block_hash_of b).
  { unfold block_hash_of, b', set_transactions. cbn [index timestamp transactions
      previous_hash nonce]. rewrite Htx. unfold calculate_block_hash.
    rewrite !transactions_string_app. cbn [transactions_string].
    rewrite stringify_digit_shift by exact Ha. reflexivity. }
  split; [|split; [exact Hh|]].
  - unfold b', set_transactions. cbn [transactions]. rewrite Htx. intros E.
    apply app_inv_head in E. injection E as E.
    apply (f_equal String.length) in E. rewrite length_append in E.
    pose proof (dec_digits_nonempty (S (N.to_nat (N.log2 (a / 10)))) (a / 10) "")
      as Hne.
    unfold N_to_string in E. destruct (dec_digits _ (a / 10) ""); [apply Hne; [lia|done]|].
    simpl in E. lia.
  - apply is_valid_links in Hv. apply is_valid_links.
    rewrite <- (list_insert_id c i b Hb) in Hv.
    apply (links_ok_insert c i b b Hb eq_refl) in Hv as [H1 H2].
    apply (links_ok_insert c i b b' Hb eq_refl). split; [exact H1|].
    intros j prv Hj Hp. destruct (H2 j prv Hj Hp) as [E1 E2].
    split; [exact E1|]. rewrite Hh. exact E2.
Qed.

(** ** The shape of a block hash *)

Lemma round_length st kw : List.length (Sha256.round st kw) = List.length st.
Proof.
  destruct st as [|a [|b [|c [|d [|e [|f [|g [|h [|i st]]]]]]]]]; reflexivity.
Qed.

Lemma fold_round_length l st :
  List.length (fold_left Sha256.round l st) = List.length st.
Proof.
  revert st. induction l as [|kw l IH]; intros st; simpl; [reflexivity|].
  rewrite IH. apply round_length.
Qed.

Lemma compress_length hs blk : List.length (Sha256.compress hs blk) = List.length hs.
Proof. unfold Sha256.compress. rewrite length_zip_with, fold_round_length. lia. Qed.

Lemma fold_compress_length l hs :
  List.length (fold_left Sha256.compress l hs) = List.length hs.
Proof.
  revert hs. induction l as [|blk l IH]; intros hs; simpl; [reflexivity|].
  rewrite IH. apply compress_length.
Qed.

Lemma length_flat_map_const {A B} (f : A -> list B) k (l : list A) :
  (forall x, List.length (f x) = k) -> List.length (flat_map f l) = k * List.length l.
Proof.
  intros Hf. induction l as [|x l IH]; simpl; [lia|]. rewrite length_app, Hf, IH. lia.
Qed.

Lemma digest_length msg : List.length (Sha256.digest msg) = 32.
Proof.
  unfold Sha256.digest. rewrite (length_flat_map_const _ 4).
  - rewrite fold_compress_length. reflexivity.
  - intros w. rewrite length_map, length_seq. reflexivity.
Qed.

Lemma digest_bytes msg : Forall (fun b => 0 <= b < 256)%Z (Sha256.digest msg).
Proof.
  unfold Sha256.digest. apply List.Forall_forall. intros b Hb.
  apply in_flat_map in Hb as (w & _ & Hb). apply in_map_iff in Hb as (i & <- & _).
  change 255%Z with (Z.ones 8). rewrite Z.land_ones by lia.
  apply Z.mod_pos_bound. lia.
Qed.

Lemma hex_char_lower d : (0 <= d < 16)%Z -> is_lower_hex (Sha256.hex_char d) = true.
Proof.
  intros Hd. rewrite <- (Z2Nat.id d) by lia.
  assert (Hn : (Z.to_nat d < 16)%nat) by lia. revert Hn. generalize (Z.to_nat d) as n.
  intros n Hn. do 16 (destruct n as [|n]; [reflexivity|]). lia.
Qed.

Lemma length_string_of_list_ascii l : String.length (string_of_list_ascii l) = List.length l.
Proof. induction l as [|c l IH]; simpl; [reflexivity|]. by rewrite IH. Qed.

Lemma sha256_hex_shape s :
  String.length (Sha256.sha256_hex s) = 64 /\
  Forall (fun c => is_lower_hex c = true) (list_ascii_of_string (Sha256.sha256_hex s)).
Proof.
  unfold Sha256.sha256_hex, Sha256.hex_encode.
  rewrite length_string_of_list_ascii, list_ascii_of_string_of_list_ascii. split.
  - rewrite (length_flat_map_const _ 2), digest_length; reflexivity.
  - apply List.Forall_forall. intros c Hc.
    apply in_flat_map in Hc as (b & Hb & Hc).
    pose proof (proj1 (List.Forall_forall _ _) (digest_bytes (Sha256.bytes_of_string s)) b Hb)
      as Hr. cbv beta in Hr.
    destruct Hc as [<-|[<-|[]]]; apply hex_char_lower.
    + rewrite Z.shiftr_div_pow2 by lia. change (2 ^ 4)%Z with 16%Z. split; [apply Z.div_pos; lia|].
      apply Z.div_lt_upper_bound; lia.
    + change 15%Z with (Z.ones 4). rewrite Z.land_ones by lia. apply Z.mod_pos_bound. lia.
Qed.

(** X: [calculate_block_hash] always returns 64 characters, each a
    lowercase hexadecimal digit. *)
Theorem calculate_block_hash_lower_hex idx ts txs prev n :
  String.length (calculate_block_hash idx ts txs prev n) = 64 /\
  Forall (fun c => is_lower_hex c = true)
    (list_ascii_of_string (calculate_block_hash idx ts txs prev n)).
Proof. apply sha256_hex_shape. Qed.

Lemma prefix_length s1 s2 : String.prefix s1 s2 = true -> String.length s1 <= String.length s2.
Proof.
  revert s2. induction s1 as [|c s1 IH]; intros s2 H; simpl; [lia|].
  destruct s2 as [|c2 s2]; simpl in H; [discriminate|].
  case_match; [|discriminate]. simpl. apply IH in H. lia.
Qed.

Lemma Block_new_fields fuel now idx txs prev d b :
  Block_new fuel now idx txs prev d = Some b ->
  index b = idx /\ timestamp b = now /\ transactions b = txs /\ previous_hash b = prev /\
  hash b = block_hash_of b /\ String.prefix (repeat_str d "0") (hash b) = true.
Proof.
  unfold Block_new, mine. intros Hrun.
  apply mine_loop_spec in Hrun as (Hi & Ht & Htx & Hph & Hh & Hp & _);
    [|reflexivity|intros n Hn; simpl in Hn; lia].
  simpl in *. auto 7.
Qed.

(** X: a hash has 64 characters, so with a difficulty above 64 the mining
    loop never finds a nonce: [Block::new] does not return, for any number
    of iterations, and neither does [Blockchain::new] with such a
    configured difficulty (unless it returns its supply error first). *)
Theorem Block_new_difficulty_above_64 fuel now idx txs prev d :
  64 < d -> Block_new fuel now idx txs prev d = None /\
  forall cfg bc, cfg_difficulty cfg = d -> Blockchain_new fuel now cfg <> Some (Ok bc).
Proof.
  intros Hd.
  assert (Hnone : forall idx' txs' prev', Block_new fuel now idx' txs' prev' d = None).
  { intros idx' txs' prev'. destruct (Block_new fuel now idx' txs' prev' d) as [b|] eqn:E;
      [exfalso|reflexivity].
    apply Block_new_fields in E as (_ & _ & _ & _ & Hh & Hp).
    apply prefix_length in Hp. rewrite length_repeat_zero, Hh in Hp.
    unfold block_hash_of, calculate_block_hash in Hp. rewrite (proj1 (sha256_hex_shape _)) in Hp.
    lia. }
  split; [apply Hnone|]. intros cfg bc Hc. unfold Blockchain_new.
  case_decide; [discriminate|]. destruct (Token_new _ _ _ _); [|discriminate].
  rewrite Hc, Hnone. discriminate.
Qed.

(** ** [Token::new] and [Blockchain::new] *)

(** X: [10u64.pow(decimals)] in [Token::new] overflows (a panic) exactly
    when [decimals >= 20]; for [decimals <= 19] the token is built. *)
Theorem Token_new_pow_overflow name symbol d supply :
  Token_new name symbol d supply = None <-> (20 <= d)%N.
Proof.
  unfold Token_new. case_decide as H.
  - split; [discriminate|]. intros Hd. exfalso.
    assert (H20 : (10 ^ 20 <= 10 ^ d)%N) by (apply N.pow_le_mono_r; lia).
    assert (Hmax : (u64_max < 10 ^ 20)%N) by reflexivity. lia.
  - split; [intros _|intros _; reflexivity].
    destruct (N.le_gt_cases 20 d) as [Hd|Hd]; [exact Hd|]. exfalso. apply H.
    apply (N.le_trans _ (10 ^ 19)%N); [apply N.pow_le_mono_r; lia|].
    vm_compute. discriminate.
Qed.

(** X: [Blockchain::new] returns [Err] exactly when the total supply is
    below the pre-mined amount, and only with that one message. When it
    returns [Ok], the pre-mined amount is within the supply, the token is
    the one [Token::new] builds, the only account is the genesis miner's
    with the pre-mined balance, the mempool is empty, the difficulty is the
    configured one, and the chain is one mined genesis block of index 0,
    with no transactions, the configured genesis hash as previous hash, and
    the hash of its own fields; the transaction history of every address
    is empty. *)
Theorem Blockchain_new_outcome fuel now cfg :
  ((cfg_total_supply cfg < cfg_genesis_pre_mined cfg)%N <->
     Blockchain_new fuel now cfg = Some (Err "ERR_TOTAL_SUPPLY_LESS_THAN_PRE_MINED")) /\
  (forall e, Blockchain_new fuel now cfg = Some (Err e) ->
     e = "ERR_TOTAL_SUPPLY_LESS_THAN_PRE_MINED") /\
  (forall bc, Blockchain_new fuel now cfg = Some (Ok bc) ->
     (cfg_genesis_pre_mined cfg <= cfg_total_supply cfg)%N /\
     Token_new (cfg_token_name cfg) (cfg_token_symbol cfg) (cfg_decimals cfg)
       (cfg_total_supply cfg) = Some (token bc) /\
     accounts bc = <[cfg_genesis_miner cfg := cfg_genesis_pre_mined cfg]> ∅ /\
     mempool bc = [] /\ difficulty bc = cfg_difficulty cfg /\
     exists g, chain bc = [g] /\ index g = 0%N /\ timestamp g = now /\
       transactions g = [] /\ previous_hash g = cfg_genesis_hash cfg /\
       hash g = block_hash_of g /\
       String.prefix (repeat_str (cfg_difficulty cfg) "0") (hash g) = true /\
       forall address, get_transaction_history bc address = []).
Proof.
  unfold Blockchain_new. case_decide as Hs.
  - split; [split; [reflexivity|intros _; exact Hs]|].
    split; [intros e He; congruence|intros bc Hb; discriminate].
  - split; [split; [intros H; contradiction|]|].
    { destruct (Token_new _ _ _ _); [|discriminate].
      destruct (Block_new _ _ _ _ _ _); discriminate. }
    split.
    + intros e. destruct (Token_new _ _ _ _); [|discriminate].
      destruct (Block_new _ _ _ _ _ _); discriminate.
    + intros bc. destruct (Token_new _ _ _ _) as [tk|] eqn:Ht; [|discriminate].
      destruct (Block_new _ _ _ _ _ _) as [g|] eqn:Hg; [|discriminate].
      intros H. injection H as <-. simpl.
      apply Block_new_fields in Hg as (Hi & Hts & Htx & Hph & Hh & Hp).
      split; [lia|]. split; [reflexivity|]. split; [reflexivity|].
      split; [reflexivity|]. split; [reflexivity|].
      exists g. repeat split; auto.
      intros address. unfold get_transaction_history. simpl. rewrite Htx. reflexivity.
Qed.

(** ** [process_mempool] *)

Lemma process_txs_partition txs temp valid errs fin :
  process_txs txs temp = (valid, errs, fin) ->
  (valid ++ map fst errs ≡ₚ txs) /\ valid `sublist_of` txs /\ map fst errs `sublist_of` txs.
Proof.
  revert temp valid errs fin.
  induction txs as [|t rest IH]; intros temp valid errs fin H; simpl in H.
  - injection H as <- <- <-. simpl. split; [reflexivity|]. split; constructor.
  - destruct (validate_transaction_with_temp_balances t temp) as [r temp'] eqn:Hv.
    destruct (process_txs rest temp') as [[v e] f] eqn:Hr.
    destruct (IH _ _ _ _ Hr) as (Hp & Hs1 & Hs2).
    destruct r; injection H as <- <- <-; simpl.
    + split; [by apply Permutation_skip|]. split; [by apply sublist_skip|by apply sublist_cons].
    + split; [|split; [by apply sublist_cons|by apply sublist_skip]].
      etransitivity; [symmetry; apply Permutation_middle|]. by apply Permutation_skip.
Qed.

(** X: [process_mempool] sorts every mempool transaction into exactly one
    of the accepted batch and the reported errors: the two lists together
    are a permutation of the mempool, and each keeps mempool order. The
    ledger it returns has an empty mempool, and the chain and accounts of
    the input. *)
Theorem process_mempool_partition bc valid errs bc1 :
  process_mempool bc = (valid, errs, bc1) ->
  (valid ++ map fst errs ≡ₚ mempool bc) /\ valid `sublist_of` mempool bc /\
  map fst errs `sublist_of` mempool bc /\
  mempool bc1 = [] /\ chain bc1 = chain bc /\ accounts bc1 = accounts bc.
Proof.
  intros H. destruct (process_mempool_eq _ _ _ _ H) as [-> [fin Hrun]].
  destruct (process_txs_partition _ _ _ _ _ Hrun) as (Hp & Hs1 & Hs2).
  auto 10.
Qed.

(** ** Transaction history *)

(** X: after [add_block], the history of every address is unchanged when
    no block was committed (empty batch or rollback); when a block was
    committed, it is the old history followed by the batch's transactions
    that involve the address, in batch order. *)
Theorem add_block_history fuel now bc bc' :
  add_block fuel now bc = Some bc' ->
  (chain bc' = chain bc /\
     forall address, get_transaction_history bc' address = get_transaction_history bc address) \/
  (exists nb, chain bc' = (chain bc ++ [nb])%list /\
     transactions nb = fst (fst (process_mempool bc)) /\
     forall address, get_transaction_history bc' address =
       (get_transaction_history bc address ++
        List.filter (tx_involves address) (fst (fst (process_mempool bc))))%list).
Proof.
  intros Hab. destruct (process_mempool bc) as [[v e] b1] eqn:Hpm. simpl.
  pose proof (process_mempool_eq _ _ _ _ Hpm) as [-> _].
  destruct (add_block_cases _ _ _ _ _ _ _ Hpm Hab)
    as [[_ ->]|[_ [lb [nb [_ [Hnb [[_ ->]|[_ [acc [_ ->]]]]]]]]]].
  - left. split; [reflexivity|]. intros address. reflexivity.
  - left. split; [reflexivity|]. intros address. reflexivity.
  - right. apply Block_new_fields in Hnb as (_ & _ & Htx & _).
    exists nb. split; [reflexivity|]. split; [exact Htx|].
    intros address. unfold get_transaction_history. simpl.
    rewrite flat_map_app. simpl. rewrite Htx, app_nil_r. reflexivity.
Qed.

(** ** [execute_transactions]: conservation of balances *)

Lemma total_insert_fresh (m : gmap string N) k v :
  m !! k = None -> total_balance (<[k := v]> m) = (v + total_balance m)%N.
Proof.
  intros Hk. unfold total_balance. apply map_fold_insert_L; [|exact Hk].
  intros. lia.
Qed.

Lemma total_insert (m : gmap string N) k v :
  (total_balance (<[k := v]> m) + bal m k = total_balance m + v)%N.
Proof.
  unfold bal. destruct (m !! k) as [w|] eqn:Hk; simpl.
  - rewrite <- (insert_delete_eq m k v).
    rewrite total_insert_fresh by apply lookup_delete_eq.
    unfold total_balance at 2.
    rewrite (map_fold_delete_L _ _ k w m) by (intros; lia || assumption).
    fold (total_balance (delete k m)). lia.
  - rewrite total_insert_fresh by exact Hk. lia.
Qed.

Lemma total_entry_or_insert0 (m : gmap string N) k :
  total_balance (entry_or_insert0 m k) = total_balance m.
Proof.
  unfold entry_or_insert0. destruct (m !! k) eqn:Hk; [reflexivity|].
  rewrite total_insert_fresh by exact Hk. lia.
Qed.

Lemma net_flow_app address xs ys :
  net_flow address (xs ++ ys)%list = (net_flow address xs + net_flow address ys)%Z.
Proof.
  induction xs as [|t xs IH]; simpl; [reflexivity|]. rewrite IH. lia.
Qed.

Lemma net_flow_filter address txs :
  net_flow address (List.filter (tx_involves address) txs) = net_flow address txs.
Proof.
  induction txs as [|t txs IH]; simpl; [reflexivity|].
  destruct (tx_involves address t) eqn:Hi; simpl; rewrite IH; [reflexivity|].
  unfold tx_involves in Hi. apply orb_false_iff in Hi as [-> ->]. lia.
Qed.


(** ** Invariants of the ledgers built through the public API *)


Lemma Blockchain_new_ok_inv fuel now cfg bc :
  Blockchain_new fuel now cfg = Some (Ok bc) ->
  (cfg_genesis_pre_mined cfg <= cfg_total_supply cfg)%N /\
  Token_new (cfg_token_name cfg) (cfg_token_symbol cfg) (cfg_decimals cfg)
    (cfg_total_supply cfg) = Some (token bc) /\
  accounts bc = <[cfg_genesis_miner cfg := cfg_genesis_pre_mined cfg]> ∅ /\
  mempool bc = [] /\ difficulty bc = cfg_difficulty cfg /\
  exists g, chain bc = [g] /\ index g = 0%N /\ timestamp g = now /\
    transactions g = [] /\ previous_hash g = cfg_genesis_hash cfg /\
    hash g = block_hash_of g /\
    String.prefix (repeat_str (cfg_difficulty cfg) "0") (hash g) = true.
Proof.
  unfold Blockchain_new. case_decide as Hs; [discriminate|].
  destruct (Token_new _ _ _ _) as [tk|] eqn:Ht; [|discriminate].
  destruct (Block_new _ _ _ _ _ _) as [g|] eqn:Hg; [|discriminate].
  intros H. injection H as <-. simpl.
  apply Block_new_fields in Hg as (Hi & Hts & Htx & Hph & Hh & Hp).
  split; [lia|]. do 4 (split; [reflexivity|]). exists g. auto 8.
Qed.

Lemma validate_ok_wf t temp u temp' :
  validate_transaction_with_temp_balances t temp = (Ok u, temp') -> tx_wf t.
Proof.
  intros H. revert H. unfold validate_transaction_with_temp_balances.
  case_decide as H1; [discriminate|]. case_decide as H2; [discriminate|].
  case_decide as H3; [discriminate|]. intros _.
  unfold tx_wf. tauto.
Qed.

Lemma process_txs_valid_wf txs temp valid errs fin :
  process_txs txs temp = (valid, errs, fin) -> List.Forall tx_wf valid.
Proof.
  revert temp valid errs fin.
  induction txs as [|t rest IH]; intros temp valid errs fin H; simpl in H.
  - injection H as <- <- <-. constructor.
  - destruct (validate_transaction_with_temp_balances t temp) as [r temp'] eqn:Hv.
    destruct (process_txs rest temp') as [[v e] f] eqn:Hr.
    destruct r; injection H as <- <- <-.
    + constructor; [exact (validate_ok_wf _ _ _ _ Hv)|exact (IH _ _ _ _ Hr)].
    + exact (IH _ _ _ _ Hr).
Qed.

Lemma history_all bc address :
  get_transaction_history bc address =
  List.filter (tx_involves address) (flat_map transactions (chain bc)).
Proof.
  unfold get_transaction_history. induction (chain bc) as [|b c IH]; simpl; [reflexivity|].
  rewrite List.filter_app, IH. reflexivity.
Qed.

Lemma execute_transactions_conserves acc txs acc' :
  execute_transactions acc txs = Some acc' ->
  total_balance acc' = total_balance acc /\
  forall k, Z.of_N (bal acc' k) = (Z.of_N (bal acc k) + net_flow k txs)%Z.
Proof.
  revert acc. induction txs as [|t rest IH]; intros acc H.
  - simpl in H. injection H as <-. split; [reflexivity|]. intros k. simpl. lia.
  - rewrite execute_transactions_cons in H.
    unfold checked_sub, checked_add in H.
    case_decide as Hsub; [|discriminate].
    set (a1 := entry_or_insert0 acc (sender t)) in H.
    set (sb := (bal acc (sender t) - amount t)%N) in H.
    case_decide as Hadd; [|discriminate].
    set (rb := (bal (<[sender t := sb]> a1) (receiver t) + amount t)%N) in H.
    set (a2 := entry_or_insert0 (<[sender t := sb]> a1) (receiver t)) in H.
    destruct (IH _ H) as [Ht Hf]. split.
    + rewrite Ht.
      pose proof (total_insert a2 (receiver t) rb) as E1.
      pose proof (total_insert a1 (sender t) sb) as E2.
      assert (E3 : bal a2 (receiver t) = bal (<[sender t := sb]> a1) (receiver t))
        by apply bal_entry_or_insert0.
      assert (E4 : total_balance a2 = total_balance (<[sender t := sb]> a1))
        by apply total_entry_or_insert0.
      assert (E5 : bal a1 (sender t) = bal acc (sender t)) by apply bal_entry_or_insert0.
      assert (E6 : total_balance a1 = total_balance acc) by apply total_entry_or_insert0.
      clearbody a2 a1. subst rb sb. lia.
    + intros k. rewrite Hf. cbn [net_flow].
      assert (F1 : forall j, bal a2 j = bal (<[sender t := sb]> a1) j)
        by (intros; apply bal_entry_or_insert0).
      assert (F2 : forall j, bal a1 j = bal acc j) by (intros; apply bal_entry_or_insert0).
      clearbody a2 a1. subst rb sb. rewrite !bal_insert, !F1, !bal_insert, !F2.
      set (s := sender t) in *. set (r := receiver t) in *. clearbody s r.
      destruct (String.eqb_spec r k) as [Hr|Hr], (String.eqb_spec s k) as [Hs|Hs];
      repeat case_decide; subst; try congruence; lia.
Qed.

(** X: when [execute_transactions] succeeds, the sum of all balances is
    unchanged (transfers only move funds, creating an account at zero adds
    nothing), and each address's balance changed by exactly what the
    batch sent to it minus what it sent. *)
Theorem execute_transactions_total_and_flow acc txs acc' :
  execute_transactions acc txs = Some acc' ->
  total_balance acc' = total_balance acc /\
  forall k, Z.of_N (bal acc' k) = (Z.of_N (bal acc k) + net_flow k txs)%Z.
Proof. exact (execute_transactions_conserves acc txs acc').
Qed.


Lemma flat_map_transactions_snoc c nb :
  flat_map transactions (c ++ [nb])%list = (flat_map transactions c ++ transactions nb)%list.
Proof. rewrite flat_map_app. simpl. rewrite app_nil_r. reflexivity. Qed.

Lemma reachable_invariant cfg bc :
  reachable cfg bc ->
  chain bc <> [] /\
  (forall i b, chain bc !! i = Some b -> index b = N.of_nat i) /\
  is_valid (chain bc) = true /\
  difficulty bc = cfg_difficulty cfg /\
  List.Forall (fun b => hash b = block_hash_of b /\
    String.prefix (repeat_str (cfg_difficulty cfg) "0") (hash b) = true) (chain bc) /\
  (cfg_genesis_pre_mined cfg <= cfg_total_supply cfg)%N /\
  total_balance (accounts bc) = cfg_genesis_pre_mined cfg /\
  List.Forall tx_wf (flat_map transactions (chain bc)) /\
  (forall k, Z.of_N (bal (accounts bc) k) =
     ((if String.eqb k (cfg_genesis_miner cfg) then Z.of_N (cfg_genesis_pre_mined cfg) else 0) +
      net_flow k (flat_map transactions (chain bc)))%Z).
Proof.
  induction 1 as [fuel now bc Hnew|bc t _ IH|fuel now bc bc' _ IH Hab].
  - apply Blockchain_new_ok_inv in Hnew
      as (Hle & _ & Hacc & _ & Hd & g & Hc & Hi & _ & Htx & _ & Hh & Hp).
    rewrite Hc, Hacc, Hd. split; [discriminate|]. split.
    { intros [|i] b Hb; simpl in Hb; [injection Hb as <-; rewrite Hi; reflexivity|].
      rewrite lookup_nil in Hb. discriminate. }
    split; [reflexivity|]. split; [reflexivity|]. split; [constructor; [auto|constructor]|].
    split; [exact Hle|]. split.
    { rewrite total_insert_fresh by apply lookup_empty.
      unfold total_balance. rewrite map_fold_empty. lia. }
    simpl. rewrite Htx. simpl. split; [constructor|].
    intros k. unfold bal. destruct (String.eqb_spec k (cfg_genesis_miner cfg)) as [->|Hk].
    + rewrite lookup_insert_eq. simpl. lia.
    + rewrite lookup_insert_ne by congruence. rewrite lookup_empty. simpl. lia.
  - exact IH.
  - destruct IH as (Hne & Hidx & Hval & Hd & Hmined & Hle & Htot & Hwf & Hbal).
    destruct (process_mempool bc) as [[valid errs] bc1] eqn:Hpm.
    pose proof (process_mempool_eq _ _ _ _ Hpm) as [Hbc1 [fin Hrun]].
    destruct (add_block_cases _ _ _ _ _ _ _ Hpm Hab)
      as [[_ ->]|[_ [lb [nb [Hlast [Hnb [[_ ->]|[Hv [acc [Hex ->]]]]]]]]]];
      [subst bc1; simpl; auto 10|subst bc1; simpl; auto 10|].
    subst bc1. simpl.
    apply Block_new_fields in Hnb as (Hinb & _ & Htx & _ & Hh & Hp).
    destruct (execute_transactions_conserves _ _ _ Hex) as [Htot' Hflow].
    rewrite flat_map_transactions_snoc, Htx.
    split; [destruct (chain bc); discriminate|].
    split.
    { intros i b Hb. apply lookup_app_Some in Hb as [Hb|[Hge Hb]]; [exact (Hidx _ _ Hb)|].
      destruct (i - List.length (chain bc)) as [|j] eqn:Hj; [|rewrite lookup_cons, lookup_nil in Hb; discriminate].
      simpl in Hb. injection Hb as <-. rewrite Hinb.
      rewrite last_lookup in Hlast. apply Hidx in Hlast. rewrite Hlast.
      destruct (chain bc); [congruence|]. simpl in *. lia. }
    split; [exact Hv|]. split; [exact Hd|].
    split.
    { apply List.Forall_app. split; [exact Hmined|]. constructor; [|constructor].
      rewrite <- Hd. auto. }
    split; [exact Hle|]. split; [congruence|].
    split.
    { apply List.Forall_app. split; [exact Hwf|]. exact (process_txs_valid_wf _ _ _ _ _ Hrun). }
    intros k. rewrite Hflow, Hbal, net_flow_app. lia.
Qed.

(** ** [is_valid]: what it prints *)

Lemma is_valid_from_outcome prev rest :
  is_valid_from prev rest = (true, []) \/
  exists b, In b rest /\
    (is_valid_from prev rest =
       (false, ["Chain is broken at block " +:+ N_to_string (index b) +:+ "!"]) \/
     is_valid_from prev rest =
       (false, ["Block " +:+ N_to_string (index b) +:+ " has an invalid hash!"])).
Proof.
  revert prev. induction rest as [|cur rest IH]; intros prev; simpl; [left; reflexivity|].
  destruct (negb _); [right; exists cur; auto|].
  destruct (negb _); [right; exists cur; auto|].
  destruct (IH cur) as [H|[b [Hin H]]]; [left; exact H|right; exists b; auto].
Qed.

(** X: [is_valid] writes at most one line to stderr, and only when it
    returns [false]: the line names the index of a block of the chain that
    is not the first one, either as a broken link or as an invalid hash. *)
Theorem is_valid_stderr c :
  (is_valid c = true /\ snd (is_valid_run c) = []) \/
  (is_valid c = false /\ exists b, In b (tl c) /\
     (snd (is_valid_run c) = ["Chain is broken at block " +:+ N_to_string (index b) +:+ "!"] \/
      snd (is_valid_run c) = ["Block " +:+ N_to_string (index b) +:+ " has an invalid hash!"])).
Proof.
  unfold is_valid. destruct c as [|g rest]; simpl; [left; auto|].
  destruct (is_valid_from_outcome g rest) as [H|[b [Hin [H|H]]]]; rewrite H; simpl.
  - left. auto.
  - right. split; [reflexivity|]. exists b. auto.
  - right. split; [reflexivity|]. exists b. auto.
Qed.

(** X: every ledger built from a configuration through [Blockchain::new],
    pushes to the mempool and [add_block] has a non-empty chain whose
    blocks carry their position as index, and its chain passes
    [is_valid]. *)
Theorem reachable_chain_shape cfg bc :
  reachable cfg bc ->
  chain bc <> [] /\
  (forall i b, chain bc !! i = Some b -> index b = N.of_nat i) /\
  is_valid (chain bc) = true.
Proof.
  intros H. destruct (reachable_invariant _ _ H) as (H1 & H2 & H3 & _). auto.
Qed.

(** X: in every such ledger the difficulty is the configured one, and every
    block (the genesis block included) stores the hash of its own fields,
    which starts with that many ['0'] characters. *)
Theorem reachable_blocks_mined cfg bc :
  reachable cfg bc ->
  difficulty bc = cfg_difficulty cfg /\
  List.Forall (fun b => hash b = block_hash_of b /\
    String.prefix (repeat_str (cfg_difficulty cfg) "0") (hash b) = true) (chain bc).
Proof.
  intros H. destruct (reachable_invariant _ _ H) as (_ & _ & _ & H4 & H5 & _). auto.
Qed.

(** X: in every such ledger the balances sum to the pre-mined amount, which
    is at most the configured total supply: no operation creates or
    destroys funds. *)
Theorem reachable_supply cfg bc :
  reachable cfg bc ->
  total_balance (accounts bc) = cfg_genesis_pre_mined cfg /\
  (cfg_genesis_pre_mined cfg <= cfg_total_supply cfg)%N.
Proof.
  intros H. destruct (reachable_invariant _ _ H) as (_ & _ & _ & _ & _ & H6 & H7 & _). auto.
Qed.

(** X: in every such ledger each transaction stored in a block has
    non-empty sender and receiver, distinct from each other, and a
    non-zero amount. *)
Theorem reachable_committed_wf cfg bc :
  reachable cfg bc -> List.Forall tx_wf (flat_map transactions (chain bc)).
Proof.
  intros H. destruct (reachable_invariant _ _ H) as (_ & _ & _ & _ & _ & _ & _ & H8 & _).
  exact H8.
Qed.

(** X: in every such ledger the balance of an address is its pre-mined
    share (the pre-mined amount for the genesis miner, 0 otherwise) plus
    what its transaction history received minus what it sent; a missing
    account reads as 0. *)
Theorem reachable_balance_history cfg bc :
  reachable cfg bc ->
  forall address, Z.of_N (bal (accounts bc) address) =
    ((if String.eqb address (cfg_genesis_miner cfg)
      then Z.of_N (cfg_genesis_pre_mined cfg) else 0) +
     net_flow address (get_transaction_history bc address))%Z.
Proof.
  intros H address. destruct (reachable_invariant _ _ H) as (_ & _ & _ & _ & _ & _ & _ & _ & H9).
  rewrite history_all, net_flow_filter. apply H9.
Qed.

(** ** Concrete instances *)

Lemma ledger_r1_reachable : reachable mock_config ledger_r1.
Proof.
  apply (reachable_add_block _ 500 now1 ledger_m).
  - apply reachable_submit. apply (reachable_new _ 200 now0). vm_compute. reflexivity.
  - vm_compute. reflexivity.
Qed.

Lemma stringify_amount_digit_shift_witness :
  (10 <= 50)%N /\
  stringify (Transaction_new "A" ("B" +:+ N_to_string (50 / 10)) (50 mod 10)) =
  stringify (Transaction_new "A" "B" 50).
Proof.
  split; [lia|]. apply stringify_amount_digit_shift. lia.
Defined.

Lemma amount_digit_shift_keeps_chain_valid_witness :
  is_valid (chain ledger1) = true /\ chain ledger1 !! 1 = Some block1 /\
  transactions block1 = ([] ++ Transaction_new "A" "B" 50 :: [])%list /\
  let b' := set_transactions block1
              ([] ++ Transaction_new "A" ("B" +:+ N_to_string (50 / 10)) (50 mod 10) :: [])%list in
  transactions b' <> transactions block1 /\ block_hash_of b' = block_hash_of block1 /\
  is_valid (<[1:=b']> (chain ledger1)) = true.
Proof.
  split; [vm_compute; reflexivity|]. split; [vm_compute; reflexivity|].
  split; [vm_compute; reflexivity|].
  apply (amount_digit_shift_keeps_chain_valid (chain ledger1) 1 block1 [] "A" "B" 50 []);
    [vm_compute; reflexivity|vm_compute; reflexivity|vm_compute; reflexivity|lia].
Defined.

Lemma Block_new_difficulty_above_64_witness :
  64 < 65 /\ Block_new 200 now0 0 [] "genesis_name" 65 = None /\
  forall cfg bc, cfg_difficulty cfg = 65 -> Blockchain_new 200 now0 cfg <> Some (Ok bc).
Proof.
  split; [lia|]. apply Block_new_difficulty_above_64. lia.
Defined.

Lemma process_mempool_partition_witness :
  process_mempool ledger_ab =
    ([Transaction_new "A" "B" 50],
     [(Transaction_new "A" "C" 60, InsufficientBalance "A" 60 50)],
     set_mempool ledger_ab []) /\
  let m := mempool ledger_ab in
  ([Transaction_new "A" "B" 50] ++ map fst [(Transaction_new "A" "C" 60, InsufficientBalance "A" 60 50)] ≡ₚ m) /\
  [Transaction_new "A" "B" 50] `sublist_of` m /\
  map fst [(Transaction_new "A" "C" 60, InsufficientBalance "A" 60 50)] `sublist_of` m /\
  mempool (set_mempool ledger_ab []) = [] /\ chain (set_mempool ledger_ab []) = chain ledger_ab /\
  accounts (set_mempool ledger_ab []) = accounts ledger_ab.
Proof.
  assert (H : process_mempool ledger_ab =
    ([Transaction_new "A" "B" 50],
     [(Transaction_new "A" "C" 60, InsufficientBalance "A" 60 50)],
     set_mempool ledger_ab [])) by (vm_compute; reflexivity).
  split; [exact H|]. exact (process_mempool_partition _ _ _ _ H).
Defined.

Lemma add_block_history_witness :
  add_block 500 now1 ledger_m = Some ledger_r1 /\
  ((chain ledger_r1 = chain ledger_m /\
     forall address, get_transaction_history ledger_r1 address = get_transaction_history ledger_m address) \/
  (exists nb, chain ledger_r1 = (chain ledger_m ++ [nb])%list /\
     transactions nb = fst (fst (process_mempool ledger_m)) /\
     forall address, get_transaction_history ledger_r1 address =
       (get_transaction_history ledger_m address ++
        List.filter (tx_involves address) (fst (fst (process_mempool ledger_m))))%list)).
Proof.
  assert (H : add_block 500 now1 ledger_m = Some ledger_r1) by (vm_compute; reflexivity).
  split; [exact H|]. exact (add_block_history _ _ _ _ H).
Defined.

Lemma execute_transactions_total_and_flow_witness :
  let acc' := default ∅ (execute_transactions (accounts ledger_ab) [Transaction_new "A" "B" 50]) in
  execute_transactions (accounts ledger_ab) [Transaction_new "A" "B" 50] = Some acc' /\
  total_balance acc' = total_balance (accounts ledger_ab) /\
  forall k, Z.of_N (bal acc' k) =
    (Z.of_N (bal (accounts ledger_ab) k) + net_flow k [Transaction_new "A" "B" 50])%Z.
Proof.
  intros acc'.
  assert (H : execute_transactions (accounts ledger_ab) [Transaction_new "A" "B" 50] = Some acc')
    by (vm_compute; reflexivity).
  split; [exact H|]. exact (execute_transactions_total_and_flow _ _ _ H).
Defined.

Lemma reachable_chain_shape_witness :
  reachable mock_config ledger_r1 /\ List.length (chain ledger_r1) = 2 /\
  chain ledger_r1 <> [] /\
  (forall i b, chain ledger_r1 !! i = Some b -> index b = N.of_nat i) /\
  is_valid (chain ledger_r1) = true.
Proof.
  split; [exact ledger_r1_reachable|]. split; [vm_compute; reflexivity|].
  exact (reachable_chain_shape _ _ ledger_r1_reachable).
Defined.

Lemma reachable_blocks_mined_witness :
  reachable mock_config ledger_r1 /\
  difficulty ledger_r1 = cfg_difficulty mock_config /\
  List.Forall (fun b => hash b = block_hash_of b /\
    String.prefix (repeat_str (cfg_difficulty mock_config) "0") (hash b) = true) (chain ledger_r1).
Proof.
  split; [exact ledger_r1_reachable|].
  exact (reachable_blocks_mined _ _ ledger_r1_reachable).
Defined.

Lemma reachable_supply_witness :
  reachable mock_config ledger_r1 /\
  total_balance (accounts ledger_r1) = cfg_genesis_pre_mined mock_config /\
  (cfg_genesis_pre_mined mock_config <= cfg_total_supply mock_config)%N.
Proof.
  split; [exact ledger_r1_reachable|].
  exact (reachable_supply _ _ ledger_r1_reachable).
Defined.

Lemma reachable_committed_wf_witness :
  reachable mock_config ledger_r1 /\
  flat_map transactions (chain ledger_r1) = [Transaction_new "Miner" "A" 100] /\
  List.Forall tx_wf (flat_map transactions (chain ledger_r1)).
Proof.
  split; [exact ledger_r1_reachable|]. split; [vm_compute; reflexivity|].
  exact (reachable_committed_wf _ _ ledger_r1_reachable).
Defined.

Lemma reachable_balance_history_witness :
  reachable mock_config ledger_r1 /\
  Z.of_N (bal (accounts ledger_r1) "A") =
    ((if String.eqb "A" (cfg_genesis_miner mock_config)
      then Z.of_N (cfg_genesis_pre_mined mock_config) else 0) +
     net_flow "A" (get_transaction_history ledger_r1 "A"))%Z.
Proof.
  split; [exact ledger_r1_reachable|].
  exact (reachable_balance_history _ _ ledger_r1_reachable "A").
Defined.
